(** * sort_css: a shallow embedding of [src/sort_css/sort_css.py]

    The development follows the layout of the Python module:
    - the Python primitives the module relies on ([str.strip], [str.split],
      [re.split], [sorted], insertion-ordered [dict]s and exceptions);
    - the CSS side: [css_to_dict], [format_css_dict], the two sorters
      [sort_css_by_keys] and [sort_css_by_html], and [generate_output_str];
    - the HTML side: [recurse], [get_identifiers_in_order] and
      [get_html_element_order];
    - the properties of the specification, stated over these definitions.

    A Python [str] is modelled as a [string] whose characters are the code
    points below 256; comparison of strings is comparison of code points, as
    in Python.  The parsers ([cssutils], [bs4]) are collaborators: the
    embedding starts from their parsed output. *)

From Stdlib Require Import List String Ascii Bool Arith NArith Lia.
From Stdlib Require Import Sorting.Sorted Sorting.Permutation.
Import ListNotations.
Local Open Scope string_scope.

Set Implicit Arguments.

(** ** Exceptions *)

Inductive exn : Type :=
| TypeError
| IndexError
| KeyError
| AttributeError.

Inductive result (A : Type) : Type :=
| Ok (a : A)
| Raise (e : exn).

Arguments Ok {A} a.
Arguments Raise {A} e.

Definition bind {A B : Type} (m : result A) (k : A -> result B) : result B :=
  match m with
  | Ok a => k a
  | Raise e => Raise e
  end.

Notation "x <- m ;; k" := (bind m (fun x => k))
  (at level 61, m at next level, right associativity).

(** A [for] loop whose body may raise: the state is threaded through the
    iterations and the first exception leaves the loop. *)
Fixpoint for_each {A S : Type} (body : S -> A -> result S) (l : list A) (s : S)
  : result S :=
  match l with
  | [] => Ok s
  | x :: r => s' <- body s x ;; for_each body r s'
  end.

(** ** Python strings *)

Definition LF : string := String "010"%char "".

(** [str.isspace] on the code points below 256. *)
Definition isspace (c : ascii) : bool :=
  let n := nat_of_ascii c in
  ((9 <=? n)%nat && (n <=? 13)%nat) || ((28 <=? n)%nat && (n <=? 32)%nat)
  || (n =? 133)%nat || (n =? 160)%nat.

Fixpoint lstrip (s : string) : string :=
  match s with
  | "" => ""
  | String c r => if isspace c then lstrip r else s
  end.

Fixpoint rstrip (s : string) : string :=
  match s with
  | "" => ""
  | String c r =>
      match rstrip r with
      | "" => if isspace c then "" else String c ""
      | r' => String c r'
      end
  end.

(** [s.strip()] *)
Definition strip (s : string) : string := rstrip (lstrip s).

(** [s.replace(c, "")] for a one-character [c]. *)
Fixpoint remove_char (c : ascii) (s : string) : string :=
  match s with
  | "" => ""
  | String a r => if Ascii.eqb a c then remove_char c r else String a (remove_char c r)
  end.

(** Splitting at every character that satisfies [sep]; empty pieces are kept,
    and the empty string gives one empty piece.  This is [s.split(",")],
    [re.split(";", s)] and [re.split(" |:", s)], whose separators are single
    characters. *)
Fixpoint split_on (sep : ascii -> bool) (s : string) : list string :=
  match s with
  | "" => [""]
  | String c r =>
      if sep c then "" :: split_on sep r
      else match split_on sep r with
           | piece :: pieces => String c piece :: pieces
           | [] => [String c ""]
           end
  end.

Definition is_char (c : ascii) : ascii -> bool := fun a => Ascii.eqb a c.

(** [key.startswith((".", "#"))] *)
Definition startswith_dot_hash (key : string) : bool :=
  prefix "." key || prefix "#" key.

(** Truth value of a string: non-empty. *)
Definition truthy (s : string) : bool :=
  match s with
  | "" => false
  | _ => true
  end.

(** The order on strings: code point by code point. *)
Definition str_le (a b : string) : Prop := (a <=? b)%string = true.

(** ** [sorted] on lists of strings

    Python's sort is stable and compares with [<]; on strings it orders by
    code point.  It is modelled by a stable insertion sort. *)

Fixpoint insert (x : string) (l : list string) : list string :=
  match l with
  | [] => [x]
  | y :: r => if (y <? x)%string then y :: insert x r else x :: l
  end.

Fixpoint sorted (l : list string) : list string :=
  match l with
  | [] => []
  | x :: r => insert x (sorted r)
  end.

(** ** Insertion-ordered dictionaries with string keys *)

Section Dict.
Variable V : Type.

Definition dict : Type := list (string * V).

Definition keys (d : dict) : list string := map fst d.
Definition values (d : dict) : list V := map snd d.

Fixpoint dict_get (d : dict) (k : string) : option V :=
  match d with
  | [] => None
  | (k', v) :: r => if String.eqb k' k then Some v else dict_get r k
  end.

(** [k in d] *)
Definition dict_mem (d : dict) (k : string) : bool :=
  match dict_get d k with
  | Some _ => true
  | None => false
  end.

(** [d[k]] as an expression *)
Definition dict_getitem (d : dict) (k : string) : result V :=
  match dict_get d k with
  | Some v => Ok v
  | None => Raise KeyError
  end.

(** [d[k] = v]: an existing key keeps its position, a new key goes last. *)
Fixpoint dict_set (d : dict) (k : string) (v : V) : dict :=
  match d with
  | [] => [(k, v)]
  | (k', v') :: r =>
      if String.eqb k' k then (k', v) :: r else (k', v') :: dict_set r k v
  end.

(** [d.setdefault(k, v)], for its effect on [d]. *)
Definition dict_setdefault (d : dict) (k : string) (v : V) : dict :=
  if dict_mem d k then d else dict_set d k v.

(** [d[k][field] = ...]: the value stored under [k] is changed in place;
    [d[k]] raises [KeyError] for a missing key. *)
Definition dict_modify (d : dict) (k : string) (f : V -> V) : result dict :=
  v <- dict_getitem d k ;; Ok (dict_set d k (f v)).

(** [{**d, **extra}] and the filling of a dict from a sequence of items. *)
Definition dict_update (d : dict) (extra : list (string * V)) : dict :=
  fold_left (fun acc kv => dict_set acc (fst kv) (snd kv)) extra d.
End Dict.

Arguments dict_get {V} d k.
Arguments dict_mem {V} d k.
Arguments dict_getitem {V} d k.
Arguments dict_set {V} d k v.
Arguments dict_setdefault {V} d k v.
Arguments dict_modify {V} d k f.
Arguments dict_update {V} d extra.
Arguments keys {V} d.
Arguments values {V} d.

(** [tuple(dict.fromkeys(it))]: the keys of the dict filled from [it]. *)
Definition fromkeys (it : list string) : list string :=
  keys (fold_left (fun d k => dict_set d k tt) it []).

(** ** The CSS side *)

(** The rules of a stylesheet of comments and style rules, as [cssutils]
    hands them over: a comment node with its text, or a style rule with its
    selector text and the text of its declaration block.  The rule objects
    without [selectorText] (at-rules) are added by [SheetRule] below. *)
Inductive CSSRule : Type :=
| CSSComment (cssText : string)
| CSSStyleRule (selectorText : string) (style_cssText : string).

(** The values of the dict built by [css_to_dict]. *)
Record RawRule : Type := mkRaw { raw_comment : string; raw_props : string }.

(** The values of the dict built by [format_css_dict]. *)
Record CssRule : Type := mkRule { comment : string; props : list string }.

Definition set_raw_comment (c : string) (r : RawRule) : RawRule :=
  mkRaw c (raw_props r).
Definition set_raw_props (p : string) (r : RawRule) : RawRule :=
  mkRaw (raw_comment r) p.

(** One iteration of the loop of [css_to_dict]; the state is the dict and the
    pending comment. *)
Definition css_to_dict_step (st : dict RawRule * string) (rule : CSSRule)
  : result (dict RawRule * string) :=
  let '(css_dict, comment) := st in
  match rule with
  | CSSComment cssText => Ok (css_dict, cssText)
  | CSSStyleRule selectorText style_cssText =>
      let css_dict :=
        if negb (dict_mem css_dict selectorText)
        then dict_setdefault css_dict selectorText (mkRaw "" "")
        else css_dict in
      css_dict <- dict_modify css_dict selectorText (set_raw_comment comment) ;;
      css_dict <- dict_modify css_dict selectorText (set_raw_props style_cssText) ;;
      Ok (css_dict, "")
  end.

Definition css_to_dict_loop (cssRules : list CSSRule)
  : result (dict RawRule * string) :=
  for_each css_to_dict_step cssRules ([], "").

Definition css_to_dict (cssRules : list CSSRule) : result (dict RawRule) :=
  st <- css_to_dict_loop cssRules ;; Ok (fst st).

(** [[prop.replace("\n", "").strip() for prop in re.split(";", props)]] *)
Definition split_properties (props_text : string) : list string :=
  map (fun prop => strip (remove_char "010"%char prop))
      (split_on (is_char ";"%char) props_text).

(** The body of the inner loop of [format_css_dict]. *)
Definition format_selector (values_comment : string) (split_props : list string)
  (formated_css_dict : dict CssRule) (selector : string) : dict CssRule :=
  let selector := strip selector in
  match dict_get formated_css_dict selector with
  | None =>
      dict_setdefault formated_css_dict selector (mkRule values_comment split_props)
  | Some old =>
      dict_set formated_css_dict selector
        (mkRule (comment old ++ values_comment) (props old ++ split_props))
  end.

(** The body of the outer loop of [format_css_dict]. *)
Definition format_item (formated_css_dict : dict CssRule)
  (item : string * RawRule) : dict CssRule :=
  let '(selectors, values) := item in
  fold_left (format_selector (raw_comment values) (split_properties (raw_props values)))
            (split_on (is_char ","%char) selectors)
            formated_css_dict.

Definition format_css_dict (css_dict : dict RawRule) : dict CssRule :=
  let formated_css_dict := fold_left format_item css_dict [] in
  dict_update []
    (map (fun kv => (fst kv, mkRule (comment (snd kv)) (sorted (props (snd kv)))))
         formated_css_dict).

(** Parsing as [main] chains it. *)
Definition parse (cssRules : list CSSRule) : result (dict CssRule) :=
  css_dict <- css_to_dict cssRules ;; Ok (format_css_dict css_dict).

(** [{key: css_dict[key] for key in ks}] *)
Definition select_keys (css_dict : dict CssRule) (ks : list string)
  : result (dict CssRule) :=
  for_each (fun acc key => v <- dict_getitem css_dict key ;; Ok (dict_set acc key v))
           ks [].

Definition sort_css_by_keys (css_dict : dict CssRule) : result (dict CssRule) :=
  tags <- select_keys css_dict
            (filter (fun key => negb (startswith_dot_hash key)) (sorted (keys css_dict))) ;;
  ids_classes <- select_keys css_dict
            (filter startswith_dot_hash (sorted (keys css_dict))) ;;
  Ok (dict_update tags ids_classes).

(** [list(filter(None, re.split(" |:", css)))[0].strip()] *)
Definition leading_token (css : string) : result string :=
  match filter truthy
          (split_on (fun c => Ascii.eqb c " "%char || Ascii.eqb c ":"%char) css) with
  | [] => Raise IndexError
  | piece :: _ => Ok (strip piece)
  end.

(** The body of the inner loop of [sort_css_by_html]. *)
Definition by_html_step (html_elem : string) (res : dict CssRule)
  (item : string * CssRule) : result (dict CssRule) :=
  let '(css, value) := item in
  token <- leading_token css ;;
  if String.eqb token html_elem && negb (dict_mem res css)
  then Ok (dict_set res css value)
  else Ok res.

Definition sort_css_by_html (css_dict : dict CssRule) (html_element_order : list string)
  : result (dict CssRule) :=
  for_each (fun res html_elem => for_each (by_html_step html_elem) css_dict res)
           html_element_order [].

(** The body of the loop of [generate_output_str]. *)
Definition output_step (result_str : string) (item : string * CssRule) : string :=
  let '(key, value) := item in
  let result_str :=
    if truthy (comment value)
    then result_str ++ (LF ++ comment value ++ LF)
    else result_str ++ LF in
  let result_str := result_str ++ (key ++ " {" ++ LF) in
  let result_str :=
    fold_left (fun acc prop => acc ++ ("    " ++ prop ++ ";" ++ LF)) (props value) result_str in
  result_str ++ ("}" ++ LF).

Definition generate_output_str (css_dict : dict CssRule) : string :=
  fold_left output_step css_dict "".

(** ** The HTML side *)

(** The attribute mapping of an element, as [bs4] builds it with
    [html.parser]: [id] is a string, [class] a list of class names, and the
    other attributes are only counted for the truth value of the mapping. *)
Record Attrs : Type := mkAttrs {
  attr_id : option string;
  attr_class : option (list string);
  attr_others : list string
}.

Definition no_attrs : Attrs := mkAttrs None None [].

(** [if element.attrs:] *)
Definition attrs_truthy (a : Attrs) : bool :=
  match attr_id a, attr_class a, attr_others a with
  | None, None, [] => false
  | _, _, _ => true
  end.

(** What [bs4] hands over: text leaves (strings, comments, doctypes, all of
    them [str] instances) and tags. *)
#[warnings="-register-all"]
Inductive PageElement : Type :=
| NavigableString (text : string)
| Tag (name : string) (attrs : Attrs) (contents : list PageElement).

(** The nested dict built by [recurse].  An entry of a dict is either the
    pair of the key ["attributes"] and an attribute mapping, or the pair of a
    tag name and the list of the dicts of the elements of that name. *)
#[warnings="-register-all"]
Inductive hentry : Type :=
| EAttrs (a : Attrs)
| ETag (key : string) (value : list (list hentry)).

Definition hdict : Type := list hentry.

Definition entry_key (e : hentry) : string :=
  match e with
  | EAttrs _ => "attributes"
  | ETag key _ => key
  end.

Fixpoint hdict_find (d : hdict) (k : string) : option hentry :=
  match d with
  | [] => None
  | e :: r => if String.eqb (entry_key e) k then Some e else hdict_find r k
  end.

(** [k in d] *)
Definition hdict_mem (d : hdict) (k : string) : bool :=
  match hdict_find d k with
  | Some _ => true
  | None => false
  end.

(** [d[k] = []] for a key that is not in [d]. *)
Definition hdict_new_list (d : hdict) (k : string) : hdict := (d ++ [ETag k []])%list.

(** [d[k] += (x,)]: a list is extended in place; an attribute mapping has no
    [+=] with a tuple, and a missing key has no value to extend. *)
Fixpoint hdict_extend (d : hdict) (k : string) (x : hdict) : result hdict :=
  match d with
  | [] => Raise KeyError
  | e :: r =>
      if String.eqb (entry_key e) k then
        match e with
        | EAttrs _ => Raise TypeError
        | ETag key value => Ok (ETag key (value ++ [x])%list :: r)
        end
      else r' <- hdict_extend r k x ;; Ok (e :: r')
  end.

(** [recurse(html_groups, collector_dict)]; [recurse_group] is one iteration
    of its loop, and iterating over a tag iterates over its contents. *)
Fixpoint recurse_group (collector_dict : hdict) (group : PageElement)
  : result hdict :=
  match group with
  | NavigableString _ => Ok collector_dict
  | Tag name attrs contents =>
      let collector_dict :=
        if negb (hdict_mem collector_dict name)
        then hdict_new_list collector_dict name
        else collector_dict in
      let tmp_collector : hdict :=
        if attrs_truthy attrs then [EAttrs attrs] else [] in
      sub <- (fix loop (groups : list PageElement) (acc : hdict) : result hdict :=
                match groups with
                | [] => Ok acc
                | g :: r => acc' <- recurse_group acc g ;; loop r acc'
                end) contents tmp_collector ;;
      hdict_extend collector_dict name sub
  end.

Definition recurse (html_groups : list PageElement) (collector_dict : hdict)
  : result hdict :=
  for_each recurse_group html_groups collector_dict.

(** [_parse], from the contents of the soup. *)
Definition _parse (soup_contents : list PageElement) : result hdict :=
  recurse soup_contents [].

(** The identifiers yielded for the key ["attributes"] of an attribute
    mapping: [#id], then one [.class] per class name. *)
Definition attrs_identifiers (a : Attrs) : list string :=
  List.app
    match attr_id a with
    | Some i => ["#" ++ i]
    | None => []
    end
    match attr_class a with
    | Some cs => map (fun class_name => "." ++ class_name) cs
    | None => []
    end.

(** The identifiers yielded by the generator [get_identifiers_in_order], in
    the order they are yielded; an exception raised while the generator runs
    reaches its consumer.

    [item_identifiers] is the body of the loop over [items()]:
    for the ["attributes"] key of an attribute mapping the [#id] and the
    classes; for a tag key the key (unless it reads ["attributes"], whose list
    value contains neither ["id"] nor ["class"]), then the recursive call on
    its list value.  The recursive call is [list_identifiers]: on a list
    whose first dict has the key ["body"] it yields ["body"] and walks the
    value of that key, otherwise it walks the list itself; [html_dict[0]]
    raises on an empty list. *)
Fixpoint item_identifiers (e : hentry) : result (list string) :=
  match e with
  | EAttrs a => Ok (attrs_identifiers a)
  | ETag key value =>
      let walk :=
        fix walk (start_node : list (list hentry)) : result (list string) :=
          match start_node with
          | [] => Ok []
          | dictionary :: rest =>
              here <- (fix items (d : list hentry) : result (list string) :=
                         match d with
                         | [] => Ok []
                         | e' :: r =>
                             a <- item_identifiers e' ;;
                             b <- items r ;; Ok (a ++ b)%list
                         end) dictionary ;;
              after <- walk rest ;; Ok (here ++ after)%list
          end in
      let from_body :=
        fix from_body (d : list hentry) : option (result (list string)) :=
          match d with
          | [] => None
          | EAttrs _ :: r => from_body r
          | ETag k v :: r =>
              if String.eqb k "body" then Some (walk v) else from_body r
          end in
      sub <- match value with
             | [] => Raise IndexError
             | first :: _ =>
                 match from_body first with
                 | Some body_ids => ids <- body_ids ;; Ok ("body" :: ids)
                 | None => walk value
                 end
             end ;;
      Ok ((if String.eqb key "attributes" then [] else [key]) ++ sub)%list
  end.

(** The loop over the items of one dict. *)
Fixpoint dict_identifiers (d : hdict) : result (list string) :=
  match d with
  | [] => Ok []
  | e :: r => a <- item_identifiers e ;; b <- dict_identifiers r ;; Ok (a ++ b)%list
  end.

(** The loop over a list of dicts. *)
Fixpoint walk_identifiers (start_node : list hdict) : result (list string) :=
  match start_node with
  | [] => Ok []
  | dictionary :: rest =>
      here <- dict_identifiers dictionary ;;
      after <- walk_identifiers rest ;; Ok (here ++ after)%list
  end.

(** [html_dict[0]["body"]] when ["body" in html_dict[0]]. *)
Fixpoint body_of (d : hdict) : option (list hdict) :=
  match d with
  | [] => None
  | EAttrs _ :: r => body_of r
  | ETag k v :: r => if String.eqb k "body" then Some v else body_of r
  end.

(** [get_identifiers_in_order(html_dict)]: the argument is a list of dicts
    ([inl]) or a dict ([inr]). *)
Definition get_identifiers_in_order (html_dict : list hdict + hdict)
  : result (list string) :=
  match html_dict with
  | inl l =>
      match l with
      | [] => Raise IndexError
      | first :: _ =>
          match body_of first with
          | Some start_node => ids <- walk_identifiers start_node ;; Ok ("body" :: ids)
          | None => walk_identifiers l
          end
      end
  | inr d => dict_identifiers d
  end.

(** [html_dict["html"]], whose [KeyError] is caught by the caller. *)
Fixpoint html_of (d : hdict) : option (list hdict + hdict) :=
  match d with
  | [] => None
  | EAttrs _ :: r => html_of r
  | ETag k v :: r => if String.eqb k "html" then Some (inl v) else html_of r
  end.

(** [get_html_element_order], from the contents of the soup. *)
Definition identifiers_in_order (soup_contents : list PageElement)
  : result (list string) :=
  html_dict <- _parse soup_contents ;;
  get_identifiers_in_order
    (match html_of html_dict with
     | Some v => v
     | None => inr html_dict
     end).

Definition get_html_element_order (soup_contents : list PageElement)
  : result (list string) :=
  ids <- identifiers_in_order soup_contents ;; Ok (fromkeys ids).

(** * Reference notions used to state the properties *)

(** The first occurrences of the elements of a list, in order. *)
Fixpoint uniq (l : list string) : list string :=
  match l with
  | [] => []
  | x :: r => x :: filter (fun y => negb (String.eqb y x)) (uniq r)
  end.

(** [x] occurs in [l], as a test. *)
Definition occurs (l : list string) (x : string) : bool := existsb (String.eqb x) l.

(** Concatenation of a list of strings. *)
Definition join (l : list string) : string := fold_right String.append "" l.

Section Group.
Variable X : Type.

(** The data recorded under the key [k] in a list of keyed data, in order. *)
Definition members (P : list (string * X)) (k : string) : list X :=
  map snd (filter (fun p => String.eqb (fst p) k) P).

(** Keyed data grouped by key: keys in order of first occurrence, the data
    of a key in order of occurrence. *)
Definition group_by_key (P : list (string * X)) : list (string * list X) :=
  map (fun k => (k, members P k)) (uniq (map fst P)).
End Group.

(** The style rules of a rule sequence in encounter order, each with the
    comment that is pending when it is handled. *)
Fixpoint blocks_from (pending : string) (rules : list CSSRule)
  : list (string * RawRule) :=
  match rules with
  | [] => []
  | CSSComment cssText :: r => blocks_from cssText r
  | CSSStyleRule selectorText style_cssText :: r =>
      (selectorText, mkRaw pending style_cssText) :: blocks_from "" r
  end.

Definition blocks (rules : list CSSRule) : list (string * RawRule) :=
  blocks_from "" rules.

(** The selector texts of the style rules. *)
Definition selector_texts (rules : list CSSRule) : list string :=
  map fst (blocks rules).

(** Every simple selector of the comma group of every block, in encounter
    order, with the block it comes from. *)
Definition occurrences (bs : list (string * RawRule)) : list (string * RawRule) :=
  flat_map (fun b => map (fun sel => (strip sel, snd b))
                         (split_on (is_char ","%char) (fst b))) bs.

(** The comments of the blocks concatenated, and their declaration lists
    concatenated, in the order of the blocks. *)
Definition merged_rule (bs : list RawRule) : CssRule :=
  mkRule (join (map raw_comment bs))
         (flat_map (fun b => split_properties (raw_props b)) bs).

Definition sorted_rule (r : CssRule) : CssRule :=
  mkRule (comment r) (sorted (props r)).

(** Selector occurrences merged per selector, before the properties are
    sorted. *)
Definition merged_dict (occ : list (string * RawRule)) : dict CssRule :=
  map (fun g => (fst g, merged_rule (snd g))) (group_by_key occ).

(** What a selector is mapped to when the comments and the declaration
    lists of all the blocks that list it are concatenated in encounter
    order. *)
Definition concatenated_rule (rules : list CSSRule) (selector : string) : CssRule :=
  merged_rule (members (occurrences (blocks rules)) selector).

(** The text of the comment node that directly precedes the end of [pre],
    with no style rule after it; empty when there is none. *)
Definition nearest_comment (pre : list CSSRule) : string :=
  match rev pre with
  | CSSComment cssText :: _ => cssText
  | _ => ""
  end.

(** The entries of [d] for the keys [ks], in the order of [ks]. *)
Definition restrict (d : dict CssRule) (ks : list string) : dict CssRule :=
  flat_map (fun k => match dict_get d k with
                     | Some v => [(k, v)]
                     | None => []
                     end) ks.

(** The properties of a rule are in ascending order. *)
Definition props_sorted (r : CssRule) : Prop := StronglySorted str_le (props r).

(** The leading simple token of the selector [css] is [html_elem]. *)
Definition selects (html_elem css : string) : bool :=
  match leading_token css with
  | Ok token => String.eqb token html_elem
  | Raise _ => false
  end.

(** The entries of [d] whose selector has the leading token [html_elem], in
    the order of [d]. *)
Definition selected (d : dict CssRule) (html_elem : string) : dict CssRule :=
  filter (fun kv => selects html_elem (fst kv)) d.

(** The entries selected by the identifiers of a sequence, identifier by
    identifier in order of first occurrence. *)
Definition selected_in_order (d : dict CssRule) (order : list string) : dict CssRule :=
  flat_map (selected d) (uniq order).

(** One serialized block. *)
Definition block (item : string * CssRule) : string :=
  LF ++ (if truthy (comment (snd item)) then comment (snd item) ++ LF else "")
  ++ fst item ++ " {" ++ LF
  ++ join (map (fun prop => "    " ++ prop ++ ";" ++ LF) (props (snd item)))
  ++ "}" ++ LF.

(** A block without the newline that the serializer puts before a
    comment: the comment and a newline when there is a comment, otherwise a
    bare newline, then the selector line, the property lines and the closing
    brace. *)
Definition block_comment_first (item : string * CssRule) : string :=
  (if truthy (comment (snd item)) then comment (snd item) ++ LF else LF)
  ++ fst item ++ " {" ++ LF
  ++ join (map (fun prop => "    " ++ prop ++ ";" ++ LF) (props (snd item)))
  ++ "}" ++ LF.

(** No tag of the tree is named [attributes]. *)
Fixpoint no_attributes_tag (e : PageElement) : bool :=
  match e with
  | NavigableString _ => true
  | Tag name _ contents =>
      negb (String.eqb name "attributes") && forallb no_attributes_tag contents
  end.

(** No tag of the tree is named [body] or [attributes]. *)
Fixpoint plain (e : PageElement) : bool :=
  match e with
  | NavigableString _ => true
  | Tag name _ contents =>
      negb (String.eqb name "body") && negb (String.eqb name "attributes")
      && forallb plain contents
  end.

(** The tags of a sequence of nodes, each with its name and with what [f]
    gives for it; the text leaves are skipped. *)
Definition tag_pairs (X : Type) (f : PageElement -> X) (nodes : list PageElement)
  : list (string * X) :=
  flat_map (fun c => match c with
                     | NavigableString _ => []
                     | Tag name _ _ => [(name, f c)]
                     end) nodes.

(** The names of the tags of a sequence of nodes. *)
Definition tag_names (nodes : list PageElement) : list string :=
  map fst (tag_pairs (fun _ => tt) nodes).

(** The tags named [k] of a sequence of nodes. *)
Definition tags_named (nodes : list PageElement) (k : string) : list PageElement :=
  filter (fun c => match c with
                   | NavigableString _ => false
                   | Tag name _ _ => String.eqb name k
                   end) nodes.

(** The dict that starts a tag: its attribute mapping if it is not empty. *)
Definition attrs_entry (a : Attrs) : hdict :=
  if attrs_truthy a then [EAttrs a] else [].

(** Keyed dicts as entries of a dict: one list-valued entry per key. *)
Definition group_entries (P : list (string * hdict)) : hdict :=
  map (fun g => ETag (fst g) (snd g)) (group_by_key P).

(** The dict of one element: its attribute mapping, then per tag name of its
    child elements the list of their dicts. *)
Fixpoint element_dict (e : PageElement) : hdict :=
  match e with
  | NavigableString _ => []
  | Tag _ attrs contents =>
      List.app (attrs_entry attrs) (group_entries (tag_pairs element_dict contents))
  end.

(** The identifiers of a sequence of keyed identifier lists: per key, in
    order of first occurrence, the key once and then the lists recorded under
    it, in order. *)
Definition group_identifiers (P : list (string * list string)) : list string :=
  flat_map (fun g => fst g :: List.concat (snd g)) (group_by_key P).

(** The identifiers of one element after its tag name: [#id], the classes,
    then its child elements grouped by tag name. *)
Fixpoint element_identifiers (e : PageElement) : list string :=
  match e with
  | NavigableString _ => []
  | Tag _ attrs contents =>
      List.app (attrs_identifiers attrs)
               (group_identifiers (tag_pairs element_identifiers contents))
  end.

(** The identifiers of a sequence of sibling nodes: per tag name, in order
    of first occurrence, the name once and then, for each element of that
    name in document order, its identifiers. *)
Definition siblings_identifiers (nodes : list PageElement) : list string :=
  group_identifiers (tag_pairs element_identifiers nodes).




(** A computation returns. *)
Definition returns (X : Type) (r : result X) : Prop := exists x, r = Ok x.

(** The child nodes of a node. *)
Definition contents_of (e : PageElement) : list PageElement :=
  match e with
  | NavigableString _ => []
  | Tag _ _ contents => contents
  end.

(** * Further notions *)

(** Every character of a string satisfies [P]. *)
Fixpoint all_chars (P : ascii -> bool) (s : string) : bool :=
  match s with
  | "" => true
  | String c r => P c && all_chars P r
  end.

(** The number of characters of a string that satisfy [P]. *)
Fixpoint count_chars (P : ascii -> bool) (s : string) : nat :=
  match s with
  | "" => 0
  | String c r => (if P c then 1 else 0) + count_chars P r
  end.

(** The separators of [re.split(" |:", css)]. *)
Definition is_space_or_colon (c : ascii) : bool :=
  Ascii.eqb c " "%char || Ascii.eqb c ":"%char.

(** A selector as [format_css_dict] keys it: stripped, without comma. *)
Definition clean_key (k : string) : Prop :=
  strip k = k /\ all_chars (fun a => negb (Ascii.eqb a ","%char)) k = true.

(** A property as [format_css_dict] lists it: stripped, without newline and
    without semicolon. *)
Definition clean_prop (p : string) : Prop :=
  strip p = p /\
  all_chars (fun a => negb (Ascii.eqb a "010"%char)) p = true /\
  all_chars (fun a => negb (Ascii.eqb a ";"%char)) p = true.

(** What is recorded last under the key [k] in a list of keyed data. *)
Definition last_assigned (X : Type) (items : list (string * X)) (k : string) : option X :=
  match rev (members items k) with
  | [] => None
  | x :: _ => Some x
  end.

(** Every rule object that [cssutils] can hand over: a comment or a rule
    with [selectorText] and [style] (the two kinds of [CSSRule]), or a rule
    object without [selectorText], such as [@media], [@import], [@charset] or
    [@font-face]. *)
Inductive SheetRule : Type :=
| PlainRule (rule : CSSRule)
| AtRule (cssText : string).

(** One iteration of the loop of [css_to_dict] on any rule object: the
    [else] branch reads [rule.selectorText] of every rule that is not a
    comment, which raises [AttributeError] when the rule has none. *)
Definition css_to_dict_any_step (st : dict RawRule * string) (rule : SheetRule)
  : result (dict RawRule * string) :=
  match rule with
  | PlainRule r => css_to_dict_step st r
  | AtRule _ => Raise AttributeError
  end.

(** [css_to_dict] on any sheet. *)
Definition css_to_dict_any (cssRules : list SheetRule) : result (dict RawRule) :=
  st <- for_each css_to_dict_any_step cssRules ([], "") ;; Ok (fst st).

(** The rules of a sheet when all of them are comments and style rules. *)
Fixpoint plain_rules (sheet : list SheetRule) : option (list CSSRule) :=
  match sheet with
  | [] => Some []
  | PlainRule r :: rest =>
      match plain_rules rest with
      | Some rules => Some (r :: rules)
      | None => None
      end
  | AtRule _ :: _ => None
  end.

(** The loop body of [main] for one file, from the parsed rules of the file
    to the string that is printed or written back.  [by_html] is the soup of
    the file that [--by_html] names, and [None] when the option is absent or
    empty. *)
Definition main_file (cssRules : list SheetRule) (by_html : option (list PageElement))
  : result string :=
  css_dict <- css_to_dict_any cssRules ;;
  let formated_css_dict := format_css_dict css_dict in
  sorted_css <-
    match by_html with
    | Some soup_contents =>
        ordered_html_elems <- get_html_element_order soup_contents ;;
        sort_css_by_html formated_css_dict ordered_html_elems
    | None => sort_css_by_keys formated_css_dict
    end ;;
  Ok (generate_output_str sorted_css).

(** No element with attributes has a child element named [attributes]. *)
Fixpoint collision_free (e : PageElement) : bool :=
  match e with
  | NavigableString _ => true
  | Tag _ attrs contents =>
      (negb (attrs_truthy attrs) || negb (occurs (tag_names contents) "attributes"))
      && forallb collision_free contents
  end.

(** The tags of a sequence of nodes, with the text leaves removed at every
    depth. *)
Fixpoint drop_text (e : PageElement) : PageElement :=
  match e with
  | NavigableString _ => e
  | Tag name attrs contents =>
      Tag name attrs
          (flat_map (fun c => match c with
                              | NavigableString _ => []
                              | Tag _ _ _ => [drop_text c]
                              end) contents)
  end.

Definition drop_text_nodes (nodes : list PageElement) : list PageElement :=
  flat_map (fun c => match c with
                     | NavigableString _ => []
                     | Tag _ _ _ => [drop_text c]
                     end) nodes.

(** A child may be collected under its name: the collector has no attribute
    mapping or the child is not named [attributes]. *)
Definition collectable (a : Attrs) (e : PageElement) : Prop :=
  match e with
  | NavigableString _ => True
  | Tag n _ _ => attrs_truthy a = false \/ n <> "attributes"
  end.

(** ** The words of the specification *)

(** A string without its leading spaces and colons. *)
Fixpoint skip_separators (s : string) : string :=
  match s with
  | "" => ""
  | String c r => if is_space_or_colon c then skip_separators r else s
  end.

(** The characters of a string before its first space or colon. *)
Fixpoint take_piece (s : string) : string :=
  match s with
  | "" => ""
  | String c r => if is_space_or_colon c then "" else String c (take_piece r)
  end.

(** The first non-empty piece of a selector text split on space and colon
    characters; the empty string when there is none. *)
Definition first_piece (css : string) : string := take_piece (skip_separators css).

(** The leading simple token of a selector: its first non-empty piece,
    trimmed. *)
Definition first_token (css : string) : string := strip (first_piece css).

(** The string starts, or ends, with a whitespace character. *)
Definition starts_with_space (s : string) : bool :=
  match s with
  | "" => false
  | String c _ => isspace c
  end.

Fixpoint ends_with_space (s : string) : bool :=
  match s with
  | "" => false
  | String c "" => isspace c
  | String _ r => ends_with_space r
  end.

(** [token] is [piece] trimmed: [piece] without the whitespace at its two
    ends. *)
Definition trimmed_to (piece token : string) : Prop :=
  exists l r,
    piece = l ++ token ++ r /\
    all_chars isspace l = true /\ all_chars isspace r = true /\
    starts_with_space token = false /\ ends_with_space token = false.

(** A key that starts with [.] or [#]. *)
Definition starts_with_dot_or_hash (key : string) : Prop :=
  exists rest, key = String "."%char rest \/ key = String "#"%char rest.




(** * Sample inputs *)

Definition example_rule : CssRule := mkRule "" ["color: red"].

Definition example_model : dict CssRule :=
  [("b", example_rule); (".k", example_rule); ("a:hover", example_rule);
   ("#a", example_rule); ("a b", example_rule)].

Definition grouped_rules : list CSSRule :=
  [CSSComment "/* links */"; CSSStyleRule "a, b" "z-index: 1";
   CSSComment "/* more */"; CSSStyleRule "a" "border: 0"].

Definition repeated_rules : list CSSRule :=
  [CSSStyleRule "a" "color: red"; CSSStyleRule "a" "margin: 0"].

Definition commented_model : dict CssRule :=
  [(".x", mkRule "/* note */" ["color: red"])].

(** [<div id="main" class="box wide"><p></p>text<span></span><p id="q"></p></div>
     <div class="box"></div>] *)
Definition sample_page : list PageElement :=
  [Tag "div" (mkAttrs (Some "main") (Some ["box"; "wide"]) [])
     [Tag "p" no_attrs []; NavigableString "text"; Tag "span" no_attrs [];
      Tag "p" (mkAttrs (Some "q") None []) []];
   Tag "div" (mkAttrs None (Some ["box"]) []) []].

(** [<div id="x"><attributes></attributes></div>] *)
Definition attributes_page : list PageElement :=
  [Tag "div" (mkAttrs (Some "x") None []) [Tag "attributes" no_attrs []]].


(** [<html><head><title></title></head>
     <body class="home"><div id="main"><p></p></div><p></p></body></html>] *)
Definition sample_document : list PageElement :=
  [Tag "html" no_attrs
     [Tag "head" no_attrs [Tag "title" no_attrs []];
      Tag "body" (mkAttrs None (Some ["home"]) [])
        [Tag "div" (mkAttrs (Some "main") None []) [Tag "p" no_attrs []];
         Tag "p" no_attrs []]]].

Definition two_rules : dict CssRule :=
  [("b", mkRule "" ["color: blue"]); ("a", mkRule "/* first */" ["color: red"])].

Definition two_rules_swapped : dict CssRule :=
  [("a", mkRule "/* first */" ["color: red"]); ("b", mkRule "" ["color: blue"])].

(** [<html lang="en"><head><title></title></head><div class="page"></div></html>] *)
Definition bodyless_document : list PageElement :=
  [Tag "html" (mkAttrs None None ["lang"])
     [Tag "head" no_attrs [Tag "title" no_attrs []];
      Tag "div" (mkAttrs None (Some ["page"]) []) []]].

(** A sheet with a style rule and a media query. *)
Definition media_sheet : list SheetRule :=
  [PlainRule (CSSStyleRule "a" "color: red");
   AtRule "@media print { a { color: black } }"].

(** A page whose sibling elements have pairwise distinct tag names. *)
Definition distinct_page : list PageElement :=
  [Tag "div" (mkAttrs (Some "main") (Some ["box"; "wide"]) [])
     [NavigableString "text";
      Tag "p" (mkAttrs None (Some ["lead"]) []) [Tag "a" no_attrs []];
      Tag "ul" (mkAttrs (Some "menu") None []) [Tag "li" no_attrs []]];
   Tag "span" no_attrs []].

(** * Properties *)

Local Open Scope list_scope.

(** Lists of distinct string literals. *)
Ltac solve_NoDup :=
  repeat (constructor; [simpl; intuition discriminate|]); constructor.

(** ** Loops and exceptions *)

Lemma for_each_app (A S : Type) (body : S -> A -> result S) (l1 l2 : list A) (s : S) :
  for_each body (l1 ++ l2)%list s = (s' <- for_each body l1 s ;; for_each body l2 s').
Proof.
  revert s; induction l1 as [|x l1 IH]; intros s; simpl; [reflexivity|].
  destruct (body s x); simpl; auto.
Qed.

(** ** The order on strings *)

Lemma str_le_refl (a : string) : str_le a a.
Proof.
  destruct (String.leb_total a a); assumption.
Qed.

Lemma str_le_trans (a b c : string) : str_le a b -> str_le b c -> str_le a c.
Proof.
  unfold str_le, String.leb.
  revert b c; induction a as [|x a IH]; intros [|y b] [|z c]; simpl;
    try reflexivity; try discriminate.
  unfold Ascii.compare.
  destruct (N.compare_spec (N_of_ascii x) (N_of_ascii y)) as [E1|L1|G1];
    destruct (N.compare_spec (N_of_ascii y) (N_of_ascii z)) as [E2|L2|G2];
    destruct (N.compare_spec (N_of_ascii x) (N_of_ascii z)) as [E3|L3|G3];
    try discriminate; try reflexivity; try lia.
  apply IH.
Qed.

Lemma ltb_true_le (a b : string) : (a <? b)%string = true -> str_le a b.
Proof.
  unfold str_le, String.ltb, String.leb.
  destruct (a ?= b)%string; congruence.
Qed.

Lemma ltb_false_le (a b : string) : (a <? b)%string = false -> str_le b a.
Proof.
  unfold str_le, String.ltb, String.leb.
  rewrite (String.compare_antisym b a).
  destruct (a ?= b)%string; simpl; congruence.
Qed.

(** ** [sorted] sorts *)

Lemma insert_perm (x : string) (l : list string) : Permutation (x :: l) (insert x l).
Proof.
  induction l as [|y l IH]; simpl; [reflexivity|].
  destruct (y <? x)%string; [|reflexivity].
  rewrite perm_swap. apply perm_skip, IH.
Qed.

Lemma sorted_perm (l : list string) : Permutation l (sorted l).
Proof.
  induction l as [|x l IH]; simpl; [reflexivity|].
  rewrite <- insert_perm. apply perm_skip, IH.
Qed.

Lemma sorted_In (l : list string) (x : string) : In x (sorted l) <-> In x l.
Proof.
  split; apply Permutation_in; [symmetry|]; apply sorted_perm.
Qed.

Lemma insert_sorted (x : string) (l : list string) :
  StronglySorted str_le l -> StronglySorted str_le (insert x l).
Proof.
  induction 1 as [|y l Hl IH Hy]; simpl.
  - repeat constructor.
  - destruct (y <? x)%string eqn:E.
    + constructor; [assumption|].
      rewrite Forall_forall in *. intros z Hz.
      apply (Permutation_in _ (Permutation_sym (insert_perm x l))) in Hz.
      destruct Hz as [<-|Hz]; [apply ltb_true_le, E | apply Hy, Hz].
    + apply ltb_false_le in E.
      constructor; [constructor; assumption|].
      constructor; [assumption|].
      rewrite Forall_forall in *. intros z Hz.
      eapply str_le_trans; [apply E | apply Hy, Hz].
Qed.

Lemma sorted_sorted (l : list string) : StronglySorted str_le (sorted l).
Proof.
  induction l as [|x l IH]; simpl; [constructor | apply insert_sorted, IH].
Qed.

(** A sorted list is determined by its elements. *)
Lemma sorted_unique (l1 l2 : list string) :
  StronglySorted str_le l1 -> StronglySorted str_le l2 ->
  Permutation l1 l2 -> l1 = l2.
Proof.
  intros H1; revert l2; induction H1 as [|x l1 Hs1 IH Hx]; intros l2 H2 HP.
  - apply Permutation_nil in HP. congruence.
  - destruct H2 as [|y l2 Hs2 Hy].
    + symmetry in HP. apply Permutation_nil in HP. discriminate.
    + assert (x = y) as ->.
      { apply String.leb_antisym.
        - assert (In y (x :: l1)) as [->|Hin]
              by (apply (Permutation_in _ (Permutation_sym HP)); left; reflexivity).
          + apply str_le_refl.
          + rewrite Forall_forall in Hx. apply Hx, Hin.
        - assert (In x (y :: l2)) as [->|Hin]
              by (apply (Permutation_in _ HP); left; reflexivity).
          + apply str_le_refl.
          + rewrite Forall_forall in Hy. apply Hy, Hin. }
      f_equal. apply IH; [assumption|].
      eapply Permutation_cons_inv, HP.
Qed.

Lemma filter_StronglySorted (p : string -> bool) (l : list string) :
  StronglySorted str_le l -> StronglySorted str_le (filter p l).
Proof.
  induction 1 as [|x l Hs IH Hx]; simpl; [constructor|].
  destruct (p x); [|assumption].
  constructor; [assumption|].
  rewrite Forall_forall in *. intros z Hz. apply filter_In in Hz. apply Hx, Hz.
Qed.

Lemma filter_perm (p : string -> bool) (l1 l2 : list string) :
  Permutation l1 l2 -> Permutation (filter p l1) (filter p l2).
Proof.
  induction 1; simpl.
  - constructor.
  - destruct (p x); [apply perm_skip|]; assumption.
  - destruct (p x), (p y); try reflexivity. apply perm_swap.
  - etransitivity; eassumption.
Qed.

Lemma filter_sorted (p : string -> bool) (l : list string) :
  filter p (sorted l) = sorted (filter p l).
Proof.
  apply sorted_unique.
  - apply filter_StronglySorted, sorted_sorted.
  - apply sorted_sorted.
  - transitivity (filter p l); [|apply sorted_perm].
    apply filter_perm. symmetry. apply sorted_perm.
Qed.

(** ** First occurrences *)

Lemma uniq_In (l : list string) (x : string) : In x (uniq l) <-> In x l.
Proof.
  induction l as [|y l IH]; simpl; [tauto|].
  rewrite filter_In, IH, negb_true_iff, String.eqb_neq.
  destruct (String.eqb_spec x y); intuition congruence.
Qed.

Lemma NoDup_filter (A : Type) (p : A -> bool) (l : list A) :
  NoDup l -> NoDup (filter p l).
Proof.
  induction 1 as [|x l Hx Hl IH]; simpl; [constructor|].
  destruct (p x); [|assumption].
  constructor; [|assumption].
  rewrite filter_In. tauto.
Qed.

Lemma uniq_NoDup (l : list string) : NoDup (uniq l).
Proof.
  induction l as [|x l IH]; simpl; constructor.
  - rewrite filter_In, String.eqb_refl. simpl. intros [_ H]; discriminate.
  - apply NoDup_filter, IH.
Qed.

Lemma filter_twice (A : Type) (p q : A -> bool) (l : list A) :
  filter p (filter q l) = filter (fun y => q y && p y) l.
Proof.
  induction l as [|x l IH]; simpl; [reflexivity|].
  destruct (q x); simpl; [destruct (p x)|]; rewrite ?IH; reflexivity.
Qed.

Lemma filter_all (A : Type) (p : A -> bool) (l : list A) :
  (forall x, In x l -> p x = true) -> filter p l = l.
Proof.
  induction l as [|x l IH]; simpl; intros H; [reflexivity|].
  rewrite (H x) by auto. f_equal. apply IH. auto.
Qed.

Lemma filter_none (A : Type) (p : A -> bool) (l : list A) :
  (forall x, In x l -> p x = false) -> filter p l = [].
Proof.
  induction l as [|x l IH]; simpl; intros H; [reflexivity|].
  rewrite (H x) by auto. apply IH. auto.
Qed.

Lemma occurs_In (l : list string) (x : string) : occurs l x = true <-> In x l.
Proof.
  unfold occurs. rewrite existsb_exists. split.
  - intros (y & Hy & E). apply String.eqb_eq in E. congruence.
  - intros H. exists x. rewrite String.eqb_refl. auto.
Qed.

Lemma occurs_not_In (l : list string) (x : string) : occurs l x = false <-> ~ In x l.
Proof.
  rewrite <- occurs_In. destruct (occurs l x); intuition congruence.
Qed.

Lemma uniq_app (l1 l2 : list string) :
  uniq (l1 ++ l2) = (uniq l1 ++ filter (fun y => negb (occurs l1 y)) (uniq l2))%list.
Proof.
  induction l1 as [|x l1 IH]; simpl.
  - symmetry. apply filter_all. reflexivity.
  - f_equal. rewrite IH, filter_app, filter_twice. f_equal.
    apply filter_ext. intros y. unfold occurs. simpl.
    destruct (String.eqb y x), (existsb (String.eqb y) l1); reflexivity.
Qed.

Lemma uniq_snoc (l : list string) (x : string) :
  uniq (l ++ [x]) = if occurs l x then uniq l else (uniq l ++ [x])%list.
Proof.
  rewrite uniq_app. simpl. destruct (occurs l x); simpl; [apply app_nil_r | reflexivity].
Qed.

(** ** Dictionaries *)

Section DictFacts.
Variable V : Type.
Implicit Types (d : dict V) (k : string) (v : V).

Lemma dict_get_None d k : dict_get d k = None <-> ~ In k (keys d).
Proof.
  induction d as [|[k' v'] d IH]; simpl; [tauto|].
  destruct (String.eqb_spec k' k); [|rewrite IH]; intuition congruence.
Qed.

Lemma dict_get_Some_In d k v : dict_get d k = Some v -> In (k, v) d.
Proof.
  induction d as [|[k' v'] d IH]; simpl; [discriminate|].
  destruct (String.eqb_spec k' k); [|auto].
  intros [= ->]. subst. auto.
Qed.

Lemma dict_get_In d k : In k (keys d) -> exists v, dict_get d k = Some v.
Proof.
  intros H. destruct (dict_get d k) eqn:E; [eauto|].
  apply dict_get_None in E. tauto.
Qed.

Lemma dict_mem_In d k : dict_mem d k = true <-> In k (keys d).
Proof.
  unfold dict_mem. destruct (dict_get d k) eqn:E.
  - split; [intros _|reflexivity].
    destruct (in_dec string_dec k (keys d)) as [H|H]; [assumption|].
    apply dict_get_None in H. congruence.
  - apply dict_get_None in E. intuition discriminate.
Qed.

Lemma dict_mem_not_In d k : dict_mem d k = false <-> ~ In k (keys d).
Proof.
  rewrite <- dict_mem_In. destruct (dict_mem d k); intuition congruence.
Qed.

Lemma dict_set_new d k v : ~ In k (keys d) -> dict_set d k v = (d ++ [(k, v)])%list.
Proof.
  induction d as [|[k' v'] d IH]; simpl; [reflexivity|].
  intros H. destruct (String.eqb_spec k' k); [tauto|].
  rewrite IH; tauto.
Qed.

Lemma keys_dict_set_old d k v : In k (keys d) -> keys (dict_set d k v) = keys d.
Proof.
  induction d as [|[k' v'] d IH]; simpl; [tauto|].
  intros H. destruct (String.eqb_spec k' k); simpl; [reflexivity|].
  f_equal. apply IH. intuition congruence.
Qed.

Lemma dict_get_set_same d k v : dict_get (dict_set d k v) k = Some v.
Proof.
  induction d as [|[k' v'] d IH]; simpl.
  - rewrite String.eqb_refl. reflexivity.
  - destruct (String.eqb_spec k' k) as [E|E]; simpl.
    + apply String.eqb_eq in E. rewrite E. reflexivity.
    + apply String.eqb_neq in E. rewrite E. assumption.
Qed.

Lemma dict_get_set_other d k k' v : k' <> k -> dict_get (dict_set d k v) k' = dict_get d k'.
Proof.
  intros Hne. induction d as [|[k0 v0] d IH]; simpl.
  - apply not_eq_sym, String.eqb_neq in Hne. rewrite Hne. reflexivity.
  - destruct (String.eqb_spec k0 k) as [E|E]; simpl.
    + subst. apply not_eq_sym, String.eqb_neq in Hne. rewrite Hne. reflexivity.
    + rewrite IH. reflexivity.
Qed.

Lemma dict_set_app_new d k v v' :
  ~ In k (keys d) -> dict_set (d ++ [(k, v)]) k v' = (d ++ [(k, v')])%list.
Proof.
  induction d as [|[k0 v0] d IH]; simpl; intros H.
  - rewrite String.eqb_refl. reflexivity.
  - destruct (String.eqb_spec k0 k); [tauto|]. rewrite IH; tauto.
Qed.

Lemma dict_update_fresh d (items : list (string * V)) :
  NoDup (keys d ++ map fst items) -> dict_update d items = (d ++ items)%list.
Proof.
  unfold dict_update. revert d.
  induction items as [|[k v] items IH]; intros d H; simpl.
  - symmetry. apply app_nil_r.
  - simpl in H. pose proof (NoDup_remove_2 _ _ _ H) as Hk.
    rewrite dict_set_new by (rewrite in_app_iff in Hk; tauto).
    rewrite IH.
    + rewrite <- app_assoc. reflexivity.
    + unfold keys. rewrite map_app. simpl. rewrite <- app_assoc. assumption.
Qed.

(** Setting a key of a dict given by its keys changes the value of that
    key only. *)
Lemma dict_set_map (f : string -> V) (ks : list string) k v :
  In k ks -> NoDup ks ->
  dict_set (map (fun x => (x, f x)) ks) k v
  = map (fun x => (x, if String.eqb x k then v else f x)) ks.
Proof.
  induction ks as [|x ks IH]; simpl; [tauto|].
  intros H Hnd. inversion Hnd as [|? ? Hx Hks]; subst.
  destruct (String.eqb_spec x k) as [E|E].
  - subst. f_equal. apply map_ext_in. intros y Hy.
    destruct (String.eqb_spec y k); [congruence|reflexivity].
  - f_equal. apply IH; [intuition congruence | assumption].
Qed.

Lemma dict_get_map (f : string -> V) (ks : list string) k :
  dict_get (map (fun x => (x, f x)) ks) k = if occurs ks k then Some (f k) else None.
Proof.
  induction ks as [|x ks IH]; simpl; [reflexivity|].
  rewrite (String.eqb_sym k x).
  destruct (String.eqb_spec x k); simpl; [congruence | exact IH].
Qed.
End DictFacts.

(** ** [css_to_dict] *)

Lemma style_step (d : dict RawRule) (c sel p : string) :
  exists d',
    css_to_dict_step (d, c) (CSSStyleRule sel p) = Ok (d', "") /\
    dict_get d' sel = Some (mkRaw c p) /\
    (~ In sel (keys d) -> d' = d ++ [(sel, mkRaw c p)]).
Proof.
  unfold css_to_dict_step, dict_setdefault, dict_modify, dict_getitem.
  destruct (dict_mem d sel) eqn:M; simpl.
  - apply dict_mem_In in M. destruct (dict_get_In d sel M) as [v Hv].
    rewrite Hv. simpl. rewrite dict_get_set_same. simpl.
    eexists. split; [reflexivity|]. split; [apply dict_get_set_same | tauto].
  - apply dict_mem_not_In in M.
    rewrite !dict_get_set_same. simpl. rewrite dict_get_set_same. simpl.
    eexists. split; [reflexivity|]. split; [apply dict_get_set_same|].
    intros _. rewrite (dict_set_new d sel _ M), !dict_set_app_new by assumption.
    reflexivity.
Qed.

Lemma css_to_dict_step_total (st : dict RawRule * string) (rule : CSSRule) :
  exists st', css_to_dict_step st rule = Ok st'.
Proof.
  destruct st as [d c], rule as [text|sel p].
  - eexists. reflexivity.
  - destruct (style_step d c sel p) as (d' & H & _). eauto.
Qed.

Lemma css_to_dict_loop_total (rules : list CSSRule) (st : dict RawRule * string) :
  exists st', for_each css_to_dict_step rules st = Ok st'.
Proof.
  revert st. induction rules as [|rule rules IH]; intros st; simpl; [eauto|].
  destruct (css_to_dict_step_total st rule) as [st1 ->]. simpl. apply IH.
Qed.

Lemma nearest_comment_snoc (pre : list CSSRule) (rule : CSSRule) :
  nearest_comment (pre ++ [rule])
  = match rule with CSSComment cssText => cssText | CSSStyleRule _ _ => "" end.
Proof.
  unfold nearest_comment. rewrite rev_app_distr. reflexivity.
Qed.

(** The pending comment after a prefix of the rules is the text of its
    nearest comment. *)
Lemma pending_comment (pre : list CSSRule) :
  exists d, css_to_dict_loop pre = Ok (d, nearest_comment pre).
Proof.
  unfold css_to_dict_loop.
  induction pre as [|rule pre IH] using rev_ind.
  - eexists. reflexivity.
  - destruct IH as [d IH]. rewrite for_each_app, IH, nearest_comment_snoc. simpl.
    destruct rule as [text|sel p]; simpl.
    + eexists. reflexivity.
    + destruct (style_step d (nearest_comment pre) sel p) as (d' & H & _).
      unfold css_to_dict_step in H. rewrite H. simpl. eauto.
Qed.

(** Rules with pairwise distinct selector texts: the dict lists the blocks. *)
Lemma css_to_dict_loop_blocks (rules : list CSSRule) (d : dict RawRule) (c : string) :
  NoDup (keys d ++ map fst (blocks_from c rules)) ->
  exists c', for_each css_to_dict_step rules (d, c) = Ok (d ++ blocks_from c rules, c').
Proof.
  revert d c. induction rules as [|[text|sel p] rules IH]; intros d c H.
  - simpl. rewrite app_nil_r. eauto.
  - simpl. apply IH. exact H.
  - simpl in H.
    assert (~ In sel (keys d)) as Hd.
    { apply NoDup_remove_2 in H. rewrite in_app_iff in H. tauto. }
    destruct (style_step d c sel p) as (d' & Hs & _ & Hd').
    rewrite (Hd' Hd) in Hs.
    change (for_each css_to_dict_step (CSSStyleRule sel p :: rules) (d, c))
      with (s' <- css_to_dict_step (d, c) (CSSStyleRule sel p) ;;
            for_each css_to_dict_step rules s').
    rewrite Hs. simpl bind.
    destruct (IH (d ++ [(sel, mkRaw c p)]) "") as [c' IH'].
    + unfold keys. rewrite map_app. simpl. rewrite <- app_assoc. exact H.
    + exists c'. rewrite IH'. simpl. rewrite <- app_assoc. reflexivity.
Qed.

Lemma css_to_dict_blocks (rules : list CSSRule) :
  NoDup (selector_texts rules) -> css_to_dict rules = Ok (blocks rules).
Proof.
  intros H. destruct (css_to_dict_loop_blocks rules [] "" H) as [c' E].
  unfold css_to_dict.
  change (css_to_dict_loop rules) with (for_each css_to_dict_step rules ([], "")).
  unfold dict in *. rewrite E. reflexivity.
Qed.

(** C7.  When a style rule is handled, the comment stored for it is the text
    of the nearest comment node that precedes it with no other style rule in
    between, and the empty string when there is none; the pending comment is
    then cleared, so that a style rule that follows directly gets the empty
    comment: a comment node attaches to at most one style rule. *)
Theorem comment_attached_to_next_rule (pre : list CSSRule) (sel p : string) :
  exists d d',
    css_to_dict_loop pre = Ok (d, nearest_comment pre) /\
    css_to_dict_loop (pre ++ [CSSStyleRule sel p]) = Ok (d', "") /\
    dict_get d' sel = Some (mkRaw (nearest_comment pre) p) /\
    forall sel2 p2, exists d'',
      css_to_dict_loop (pre ++ [CSSStyleRule sel p; CSSStyleRule sel2 p2]) = Ok (d'', "") /\
      dict_get d'' sel2 = Some (mkRaw "" p2).
Proof.
  destruct (pending_comment pre) as [d Hd].
  destruct (style_step d (nearest_comment pre) sel p) as (d' & Hs & Hg & _).
  assert (css_to_dict_loop (pre ++ [CSSStyleRule sel p]) = Ok (d', "")) as Hd'.
  { unfold css_to_dict_loop in *. rewrite for_each_app, Hd.
    cbn [bind for_each]. rewrite Hs. reflexivity. }
  exists d, d'. repeat split; try assumption.
  intros sel2 p2.
  destruct (style_step d' "" sel2 p2) as (d'' & Hs2 & Hg2 & _).
  exists d''. split; [|assumption].
  change (pre ++ [CSSStyleRule sel p; CSSStyleRule sel2 p2])
    with (pre ++ [CSSStyleRule sel p] ++ [CSSStyleRule sel2 p2]).
  rewrite app_assoc.
  unfold css_to_dict_loop in *. rewrite for_each_app, Hd'.
  cbn [bind for_each]. rewrite Hs2. reflexivity.
Qed.

(** ** Strings *)

Lemma str_app_nil_r (s : string) : (s ++ "")%string = s.
Proof.
  induction s as [|c s IH]; simpl; congruence.
Qed.

Lemma str_app_assoc (a b c : string) : ((a ++ b) ++ c)%string = (a ++ (b ++ c))%string.
Proof.
  induction a as [|x a IH]; simpl; congruence.
Qed.

Lemma join_app (l1 l2 : list string) : join (l1 ++ l2) = (join l1 ++ join l2)%string.
Proof.
  induction l1 as [|x l1 IH]; simpl; [reflexivity|].
  rewrite IH, str_app_assoc. reflexivity.
Qed.

Lemma join_snoc (l : list string) (x : string) : join (l ++ [x]) = (join l ++ x)%string.
Proof.
  rewrite join_app. simpl. rewrite str_app_nil_r. reflexivity.
Qed.

(** ** Grouping by key *)

Section GroupFacts.
Variable X : Type.
Implicit Types (P Q : list (string * X)) (k : string).

Lemma members_app P Q k : members (P ++ Q) k = members P k ++ members Q k.
Proof.
  unfold members. rewrite filter_app, map_app. reflexivity.
Qed.

Lemma members_absent P k : ~ In k (map fst P) -> members P k = [].
Proof.
  intros H. unfold members. rewrite filter_none; [reflexivity|].
  intros [k' x] Hin. simpl. apply String.eqb_neq. intros ->.
  apply H. apply (in_map fst) in Hin. exact Hin.
Qed.

Lemma members_present P k : In k (map fst P) -> members P k <> [].
Proof.
  induction P as [|[k' x] P IH]; simpl; [tauto|].
  unfold members. simpl. destruct (String.eqb_spec k' k); simpl.
  - discriminate.
  - intros [E|H]; [congruence | apply IH, H].
Qed.

Lemma members_one k k' (x : X) :
  members [(k, x)] k' = if String.eqb k k' then [x] else [].
Proof.
  unfold members. simpl. destruct (String.eqb k k'); reflexivity.
Qed.

Lemma group_by_key_keys P : map fst (group_by_key P) = uniq (map fst P).
Proof.
  unfold group_by_key. rewrite map_map. simpl. apply map_id.
Qed.

(** Recording one more datum: under a key that is already there the datum
    joins the data of that key, under a new key it opens a group at the
    end. *)
Lemma group_by_key_snoc P k (x : X) :
  group_by_key (P ++ [(k, x)])
  = if occurs (map fst P) k
    then map (fun g => (fst g, if String.eqb (fst g) k then snd g ++ [x] else snd g))
             (group_by_key P)
    else group_by_key P ++ [(k, [x])].
Proof.
  unfold group_by_key. rewrite map_app. simpl. rewrite uniq_snoc.
  destruct (occurs (map fst P) k) eqn:O.
  - rewrite map_map. simpl. apply map_ext. intros k'.
    rewrite members_app, members_one, (String.eqb_sym k' k).
    destruct (String.eqb k k'); [reflexivity | rewrite app_nil_r; reflexivity].
  - apply occurs_not_In in O. rewrite map_app. simpl. f_equal.
    + apply map_ext_in. intros k' Hk'. rewrite uniq_In in Hk'.
      rewrite members_app, members_one.
      destruct (String.eqb_spec k k'); [subst; tauto | rewrite app_nil_r; reflexivity].
    + rewrite members_app, members_one, String.eqb_refl, members_absent by assumption.
      reflexivity.
Qed.
End GroupFacts.

(** ** [format_css_dict] *)

Lemma merged_rule_snoc (bs : list RawRule) (b : RawRule) :
  merged_rule (bs ++ [b])
  = mkRule (comment (merged_rule bs) ++ raw_comment b)%string
           (props (merged_rule bs) ++ split_properties (raw_props b)).
Proof.
  unfold merged_rule. rewrite map_app, flat_map_app.
  cbn [map flat_map comment props]. rewrite join_snoc, app_nil_r. reflexivity.
Qed.

Lemma merged_dict_keys (occ : list (string * RawRule)) :
  keys (merged_dict occ) = uniq (map fst occ).
Proof.
  unfold keys, merged_dict. rewrite map_map. simpl. apply group_by_key_keys.
Qed.

Lemma merged_dict_get (occ : list (string * RawRule)) (s : string) :
  dict_get (merged_dict occ) s
  = if occurs (map fst occ) s then Some (merged_rule (members occ s)) else None.
Proof.
  unfold merged_dict, group_by_key. rewrite map_map. simpl.
  rewrite (dict_get_map (fun k => merged_rule (members occ k))).
  replace (occurs (uniq (map fst occ)) s) with (occurs (map fst occ) s); [reflexivity|].
  destruct (occurs (map fst occ) s) eqn:O; symmetry.
  - apply occurs_In, uniq_In, occurs_In, O.
  - apply occurs_not_In. rewrite uniq_In. apply occurs_not_In, O.
Qed.

(** One iteration of the inner loop records one occurrence of a selector. *)
Lemma format_selector_merged (occ : list (string * RawRule)) (b : RawRule) (sel : string) :
  format_selector (raw_comment b) (split_properties (raw_props b)) (merged_dict occ) sel
  = merged_dict (occ ++ [(strip sel, b)]).
Proof.
  unfold format_selector. rewrite merged_dict_get.
  unfold merged_dict at 3. rewrite group_by_key_snoc.
  destruct (occurs (map fst occ) (strip sel)) eqn:O.
  - unfold merged_dict, group_by_key. rewrite !map_map. simpl.
    rewrite (dict_set_map (fun k => merged_rule (members occ k))).
    + apply map_ext. intros k. destruct (String.eqb_spec k (strip sel)) as [->|]; [|reflexivity].
      rewrite merged_rule_snoc. reflexivity.
    + apply uniq_In, occurs_In, O.
    + apply uniq_NoDup.
  - unfold dict_setdefault.
    assert (~ In (strip sel) (keys (merged_dict occ))) as Hk.
    { rewrite merged_dict_keys, uniq_In. apply occurs_not_In, O. }
    rewrite (proj2 (dict_mem_not_In _ _) Hk), dict_set_new by assumption.
    unfold merged_dict. rewrite map_app. simpl. do 2 f_equal.
    unfold merged_rule. simpl. rewrite str_app_nil_r, app_nil_r. reflexivity.
Qed.

Lemma format_selectors_merged (b : RawRule) (pieces : list string)
  (occ : list (string * RawRule)) :
  fold_left (format_selector (raw_comment b) (split_properties (raw_props b)))
            pieces (merged_dict occ)
  = merged_dict (occ ++ map (fun sel => (strip sel, b)) pieces).
Proof.
  revert occ. induction pieces as [|sel pieces IH]; intros occ; simpl.
  - rewrite app_nil_r. reflexivity.
  - rewrite format_selector_merged, IH, <- app_assoc. reflexivity.
Qed.

Lemma format_items_merged (css_dict : dict RawRule) (occ : list (string * RawRule)) :
  fold_left format_item css_dict (merged_dict occ)
  = merged_dict (occ ++ occurrences css_dict).
Proof.
  revert occ. induction css_dict as [|[selectors b] css_dict IH]; intros occ; simpl.
  - rewrite app_nil_r. reflexivity.
  - rewrite format_selectors_merged, IH, <- app_assoc. reflexivity.
Qed.

(** [format_css_dict] merges the occurrences of every selector and sorts the
    merged properties. *)
Lemma format_css_dict_merged (css_dict : dict RawRule) :
  format_css_dict css_dict
  = map (fun kv => (fst kv, sorted_rule (snd kv))) (merged_dict (occurrences css_dict)).
Proof.
  unfold format_css_dict.
  change (fold_left format_item css_dict [])
    with (fold_left format_item css_dict (merged_dict [])).
  rewrite format_items_merged. cbn [app].
  apply dict_update_fresh. cbn [keys map app]. rewrite map_map. cbn [fst].
  change (map (fun x => fst x) (merged_dict (occurrences css_dict)))
    with (keys (merged_dict (occurrences css_dict))).
  rewrite merged_dict_keys. apply uniq_NoDup.
Qed.

Lemma dict_get_map_values (A B : Type) (f : A -> B) (d : dict A) (k : string) :
  dict_get (map (fun kv => (fst kv, f (snd kv))) d) k = option_map f (dict_get d k).
Proof.
  induction d as [|[k' v] d IH]; simpl; [reflexivity|].
  destruct (String.eqb k' k); [reflexivity | exact IH].
Qed.

Lemma keys_map_values (A B : Type) (f : A -> B) (d : dict A) :
  keys (map (fun kv => (fst kv, f (snd kv))) d) = keys d.
Proof.
  unfold keys. rewrite map_map. reflexivity.
Qed.

Lemma parse_total (rules : list CSSRule) :
  exists css_dict, css_to_dict rules = Ok css_dict /\
                   parse rules = Ok (format_css_dict css_dict).
Proof.
  unfold parse, css_to_dict, css_to_dict_loop.
  destruct (css_to_dict_loop_total rules ([], "")) as [[d c] ->].
  exists d. split; reflexivity.
Qed.

Lemma format_css_dict_NoDup (css_dict : dict RawRule) :
  NoDup (keys (format_css_dict css_dict)).
Proof.
  rewrite format_css_dict_merged, keys_map_values, merged_dict_keys.
  apply uniq_NoDup.
Qed.

Lemma format_css_dict_sorted (css_dict : dict RawRule) :
  Forall props_sorted (values (format_css_dict css_dict)).
Proof.
  rewrite format_css_dict_merged. unfold values. rewrite map_map.
  apply Forall_forall. intros r Hr. apply in_map_iff in Hr.
  destruct Hr as (kv & <- & _). apply sorted_sorted.
Qed.

(** ** [sort_css_by_keys] *)

Lemma restrict_app (d : dict CssRule) (ks1 ks2 : list string) :
  restrict d (ks1 ++ ks2) = restrict d ks1 ++ restrict d ks2.
Proof.
  apply flat_map_app.
Qed.

Lemma restrict_keys (d : dict CssRule) (ks : list string) :
  incl ks (keys d) -> keys (restrict d ks) = ks.
Proof.
  induction ks as [|k ks IH]; intros H; simpl; [reflexivity|].
  destruct (dict_get_In d k) as [v Hv]; [apply H; left; reflexivity|].
  rewrite Hv. simpl. f_equal. apply IH. intros x Hx. apply H. right. exact Hx.
Qed.

Lemma restrict_get (d : dict CssRule) (ks : list string) (k : string) :
  dict_get (restrict d ks) k = if occurs ks k then dict_get d k else None.
Proof.
  induction ks as [|x ks IH]; simpl; [reflexivity|].
  rewrite (String.eqb_sym k x).
  destruct (dict_get d x) eqn:E; simpl.
  - destruct (String.eqb_spec x k); simpl; [congruence | exact IH].
  - destruct (String.eqb_spec x k); simpl; [|exact IH].
    subst. rewrite IH, E. destruct (occurs ks k); reflexivity.
Qed.

Lemma restrict_values (d : dict CssRule) (ks : list string) (P : CssRule -> Prop) :
  Forall P (values d) -> Forall P (values (restrict d ks)).
Proof.
  intros H. rewrite Forall_forall in *. intros v Hv.
  unfold values in Hv. apply in_map_iff in Hv. destruct Hv as ([k v'] & <- & Hin).
  unfold restrict in Hin. apply in_flat_map in Hin. destruct Hin as (x & _ & Hx).
  destruct (dict_get d x) eqn:E; simpl in Hx; [|tauto].
  destruct Hx as [[= <- <-]|[]]. apply H.
  apply dict_get_Some_In in E. apply (in_map snd) in E. exact E.
Qed.

Lemma select_keys_loop (d acc : dict CssRule) (ks : list string) :
  NoDup (keys acc ++ ks) -> incl ks (keys d) ->
  for_each (fun acc key => v <- dict_getitem d key ;; Ok (dict_set acc key v)) ks acc
  = Ok (acc ++ restrict d ks).
Proof.
  revert acc. induction ks as [|k ks IH]; intros acc Hnd Hin; simpl.
  - rewrite app_nil_r. reflexivity.
  - destruct (dict_get_In d k) as [v Hv]; [apply Hin; left; reflexivity|].
    unfold dict_getitem. rewrite Hv. simpl.
    rewrite dict_set_new.
    + rewrite IH.
      * rewrite <- app_assoc. reflexivity.
      * unfold keys. rewrite map_app. simpl. rewrite <- app_assoc. exact Hnd.
      * intros x Hx. apply Hin. right. exact Hx.
    + intros H. apply NoDup_remove_2 in Hnd. apply Hnd. apply in_or_app. left. exact H.
Qed.

Lemma select_keys_restrict (d : dict CssRule) (ks : list string) :
  NoDup ks -> incl ks (keys d) -> select_keys d ks = Ok (restrict d ks).
Proof.
  intros Hnd Hin. unfold select_keys. apply (@select_keys_loop d [] ks Hnd Hin).
Qed.

Lemma filter_partition_NoDup (p : string -> bool) (l : list string) :
  NoDup l -> NoDup (filter (fun k => negb (p k)) l ++ filter p l).
Proof.
  induction 1 as [|x l Hx Hl IH]; simpl; [constructor|].
  destruct (p x); simpl.
  - eapply Permutation_NoDup; [apply Permutation_middle|].
    constructor; [|exact IH].
    rewrite in_app_iff, !filter_In. tauto.
  - constructor; [|exact IH].
    rewrite in_app_iff, !filter_In. tauto.
Qed.

Lemma filter_partition_perm (p : string -> bool) (l : list string) :
  Permutation (filter (fun k => negb (p k)) l ++ filter p l) l.
Proof.
  induction l as [|x l IH]; simpl; [constructor|].
  destruct (p x); simpl.
  - symmetry. apply Permutation_cons_app. symmetry. exact IH.
  - apply perm_skip, IH.
Qed.

Lemma sorted_NoDup (l : list string) : NoDup l -> NoDup (sorted l).
Proof.
  apply Permutation_NoDup, sorted_perm.
Qed.

(** The closed form of the lexicographic sort. *)
Lemma sort_css_by_keys_restrict (d : dict CssRule) :
  NoDup (keys d) ->
  sort_css_by_keys d
  = Ok (restrict d (filter (fun key => negb (startswith_dot_hash key)) (sorted (keys d))
                    ++ filter startswith_dot_hash (sorted (keys d)))).
Proof.
  intros Hnd. unfold sort_css_by_keys.
  pose proof (filter_partition_NoDup startswith_dot_hash (sorted_NoDup Hnd)) as Hp.
  assert (forall p, incl (filter p (sorted (keys d))) (keys d)) as Hin.
  { intros p x Hx. apply filter_In in Hx. apply sorted_In, Hx. }
  rewrite !select_keys_restrict;
    try apply Hin; try apply NoDup_filter, sorted_NoDup, Hnd.
  simpl. rewrite dict_update_fresh.
  - rewrite restrict_app. reflexivity.
  - rewrite restrict_keys by apply Hin.
    change (map fst (restrict d (filter startswith_dot_hash (sorted (keys d)))))
      with (keys (restrict d (filter startswith_dot_hash (sorted (keys d))))).
    rewrite restrict_keys by apply Hin. exact Hp.
Qed.

Lemma startswith_dot_hash_spec (key : string) :
  startswith_dot_hash key = true <-> starts_with_dot_or_hash key.
Proof.
  unfold startswith_dot_hash, starts_with_dot_or_hash. split.
  - destruct key as [|c rest]; [discriminate|]. cbn [prefix orb].
    destruct (ascii_dec "." c) as [<-|_].
    + intros _. exists rest. left. reflexivity.
    + destruct (ascii_dec "#" c) as [<-|_]; [|discriminate].
      intros _. exists rest. right. reflexivity.
  - intros [rest [->| ->]]; cbn [prefix].
    + destruct (ascii_dec "." "."); [|congruence].
      destruct rest; reflexivity.
    + destruct (ascii_dec "#" "#"); [|congruence].
      rewrite orb_true_iff. right. destruct rest; reflexivity.
Qed.

(** C5.  The keys of the lexicographic sort are the keys of the input, each
    once: first all the keys that do not start with [.] or [#], in ascending
    order, and then all the keys that start with [.] or [#], in ascending
    order: every tag selector precedes every id or class selector. *)
Theorem lexicographic_key_order (d : dict CssRule) :
  NoDup (keys d) ->
  exists out tags ids_classes,
    sort_css_by_keys d = Ok out /\
    keys out = tags ++ ids_classes /\
    Permutation (tags ++ ids_classes) (keys d) /\
    Forall (fun key => ~ starts_with_dot_or_hash key) tags /\
    Forall starts_with_dot_or_hash ids_classes /\
    StronglySorted str_le tags /\
    StronglySorted str_le ids_classes /\
    tags = sorted (filter (fun key => negb (startswith_dot_hash key)) (keys d)) /\
    ids_classes = sorted (filter startswith_dot_hash (keys d)) /\
    Forall (fun key => startswith_dot_hash key = false) tags /\
    Forall (fun key => startswith_dot_hash key = true) ids_classes.
Proof.
  intros Hnd. do 3 eexists.
  split; [apply sort_css_by_keys_restrict, Hnd|].
  split.
  { rewrite restrict_keys.
    - rewrite !filter_sorted. reflexivity.
    - intros x Hx. apply in_app_iff in Hx.
      destruct Hx as [Hx|Hx]; apply filter_In in Hx; apply sorted_In, Hx. }
  split.
  { rewrite <- (filter_partition_perm startswith_dot_hash (keys d)) at 3.
    apply Permutation_app; symmetry; apply sorted_perm. }
  assert (Forall (fun key => startswith_dot_hash key = false)
            (sorted (filter (fun key => negb (startswith_dot_hash key)) (keys d)))) as Ht.
  { apply Forall_forall. intros k Hk. apply sorted_In, filter_In in Hk.
    apply negb_true_iff, Hk. }
  assert (Forall (fun key => startswith_dot_hash key = true)
            (sorted (filter startswith_dot_hash (keys d)))) as Hi.
  { apply Forall_forall. intros k Hk. apply sorted_In, filter_In in Hk. apply Hk. }
  split.
  { apply (Forall_impl _ (P := fun key => startswith_dot_hash key = false)); [|exact Ht].
    intros k Hk Hs. apply startswith_dot_hash_spec in Hs. congruence. }
  split.
  { apply (Forall_impl _ (P := fun key => startswith_dot_hash key = true)); [|exact Hi].
    intros k Hk. apply startswith_dot_hash_spec, Hk. }
  repeat split; try apply sorted_sorted; assumption.
Qed.

Lemma lexicographic_key_order_witness :
  exists out tags ids_classes,
    sort_css_by_keys example_model = Ok out /\
    keys out = tags ++ ids_classes /\
    Permutation (tags ++ ids_classes) (keys example_model) /\
    Forall (fun key => ~ starts_with_dot_or_hash key) tags /\
    Forall starts_with_dot_or_hash ids_classes /\
    StronglySorted str_le tags /\
    StronglySorted str_le ids_classes /\
    tags = sorted (filter (fun key => negb (startswith_dot_hash key)) (keys example_model)) /\
    ids_classes = sorted (filter startswith_dot_hash (keys example_model)) /\
    Forall (fun key => startswith_dot_hash key = false) tags /\
    Forall (fun key => startswith_dot_hash key = true) ids_classes.
Proof.
  apply (lexicographic_key_order example_model). simpl. solve_NoDup.
Defined.

Lemma occurs_perm (l1 l2 : list string) (k : string) :
  Permutation l1 l2 -> occurs l1 k = occurs l2 k.
Proof.
  intros HP. destruct (occurs l2 k) eqn:O.
  - apply occurs_In. apply occurs_In in O. apply (Permutation_in _ (Permutation_sym HP)), O.
  - apply occurs_not_In. apply occurs_not_In in O. intros H. apply O.
    apply (Permutation_in _ HP), H.
Qed.

(** C10.  The lexicographic sort keeps the entries: the keys of the output
    are the keys of the input in another order, without repetition, and
    every key is mapped to the rule it is mapped to in the input. *)
Theorem lexicographic_sort_keeps_entries (d : dict CssRule) :
  NoDup (keys d) ->
  exists out,
    sort_css_by_keys d = Ok out /\
    Permutation (keys out) (keys d) /\
    NoDup (keys out) /\
    forall key, dict_get out key = dict_get d key.
Proof.
  intros Hnd. eexists. split; [apply sort_css_by_keys_restrict, Hnd|].
  assert (Permutation
            (filter (fun key => negb (startswith_dot_hash key)) (sorted (keys d))
             ++ filter startswith_dot_hash (sorted (keys d))) (keys d)) as HP.
  { etransitivity; [apply filter_partition_perm|]. symmetry. apply sorted_perm. }
  assert (keys (restrict d
            (filter (fun key => negb (startswith_dot_hash key)) (sorted (keys d))
             ++ filter startswith_dot_hash (sorted (keys d))))
          = filter (fun key => negb (startswith_dot_hash key)) (sorted (keys d))
             ++ filter startswith_dot_hash (sorted (keys d))) as Hk.
  { apply restrict_keys. intros x Hx. apply (Permutation_in _ HP), Hx. }
  rewrite Hk. split; [exact HP|]. split.
  - apply (Permutation_NoDup (Permutation_sym HP)), Hnd.
  - intros key. rewrite restrict_get, (occurs_perm _ HP).
    destruct (occurs (keys d) key) eqn:O; [reflexivity|].
    symmetry. apply dict_get_None, occurs_not_In, O.
Qed.

Lemma lexicographic_sort_keeps_entries_witness :
  exists out,
    sort_css_by_keys example_model = Ok out /\
    Permutation (keys out) (keys example_model) /\
    NoDup (keys out) /\
    forall key, dict_get out key = dict_get example_model key.
Proof.
  apply (lexicographic_sort_keeps_entries example_model). simpl. solve_NoDup.
Defined.

(** ** [sort_css_by_html] *)

Section DictInvariants.
Variable V : Type.
Implicit Types (d : dict V) (k : string) (v : V).

Lemma dict_set_NoDup d k v : NoDup (keys d) -> NoDup (keys (dict_set d k v)).
Proof.
  intros H. destruct (in_dec string_dec k (keys d)) as [Hin|Hout].
  - rewrite keys_dict_set_old; assumption.
  - rewrite dict_set_new by assumption. unfold keys. rewrite map_app. simpl.
    eapply Permutation_NoDup; [apply Permutation_cons_append|].
    constructor; assumption.
Qed.

Lemma dict_set_values (P : V -> Prop) d k v :
  Forall P (values d) -> P v -> Forall P (values (dict_set d k v)).
Proof.
  intros H Hv. induction d as [|[k' v'] d IH]; simpl.
  - constructor; [assumption|constructor].
  - inversion H as [|? ? Hv' Hd]; subst.
    destruct (String.eqb k' k); simpl; constructor; auto.
Qed.

Lemma In_dict_get d k v : NoDup (keys d) -> In (k, v) d -> dict_get d k = Some v.
Proof.
  induction d as [|[k' v'] d IH]; simpl; [tauto|].
  intros Hnd [[= -> ->]|Hin].
  - rewrite String.eqb_refl. reflexivity.
  - inversion Hnd as [|? ? Hk' Hd]; subst.
    destruct (String.eqb_spec k' k) as [->|]; [|auto].
    exfalso. apply Hk'. apply (in_map fst) in Hin. exact Hin.
Qed.

Lemma dict_mem_set_other d k k' v :
  k' <> k -> dict_mem (dict_set d k v) k' = dict_mem d k'.
Proof.
  intros H. unfold dict_mem. rewrite dict_get_set_other by assumption. reflexivity.
Qed.
End DictInvariants.

(** Whatever holds of the empty dict and is kept when an entry of [d] is
    set holds of the result of the sort. *)
Lemma sort_css_by_html_invariant (P : dict CssRule -> Prop) (d : dict CssRule) :
  P [] ->
  (forall res k v, In (k, v) d -> P res -> P (dict_set res k v)) ->
  forall order out, sort_css_by_html d order = Ok out -> P out.
Proof.
  intros H0 Hset order. unfold sort_css_by_html.
  assert (forall html_elem items res out,
             incl items d -> P res ->
             for_each (by_html_step html_elem) items res = Ok out -> P out) as Hinner.
  { intros html_elem items. induction items as [|[css value] items IH];
      intros res out Hin Hres; simpl.
    - intros [= <-]. exact Hres.
    - destruct (leading_token css) as [token|e]; simpl; [|discriminate].
      destruct (String.eqb token html_elem && negb (dict_mem res css)); simpl.
      + apply IH; [intros x Hx; apply Hin; right; exact Hx|].
        apply Hset; [apply Hin; left; reflexivity | exact Hres].
      + apply IH; [intros x Hx; apply Hin; right; exact Hx | exact Hres]. }
  generalize (@nil (string * CssRule)) H0.
  induction order as [|html_elem order IH]; intros res Hres out; simpl.
  - intros [= <-]. exact Hres.
  - destruct (for_each (by_html_step html_elem) d res) as [res'|e] eqn:E; simpl;
      [|discriminate].
    apply IH. eapply Hinner; [apply incl_refl | exact Hres | exact E].
Qed.

Lemma selects_token (html_elem css token : string) :
  leading_token css = Ok token -> selects html_elem css = String.eqb token html_elem.
Proof.
  unfold selects. intros ->. reflexivity.
Qed.

Lemma selects_unique (a b css : string) :
  selects a css = true -> selects b css = true -> a = b.
Proof.
  unfold selects. destruct (leading_token css) as [token|e]; [|discriminate].
  rewrite !String.eqb_eq. congruence.
Qed.

Lemma by_html_inner (html_elem : string) (items res : dict CssRule) :
  NoDup (keys items) ->
  (forall k, In k (keys items) -> exists token, leading_token k = Ok token) ->
  for_each (by_html_step html_elem) items res
  = Ok (res ++ filter (fun kv => selects html_elem (fst kv) && negb (dict_mem res (fst kv)))
                      items).
Proof.
  revert res. induction items as [|[css value] items IH]; intros res Hnd Htok; simpl.
  - rewrite app_nil_r. reflexivity.
  - inversion Hnd as [|? ? Hcss Hitems]; subst.
    destruct (Htok css) as [token Ht]; [left; reflexivity|].
    rewrite (selects_token html_elem css Ht), Ht. simpl.
    assert (forall k, In k (keys items) -> exists token, leading_token k = Ok token) as Htok'.
    { intros k Hk. apply Htok. right. exact Hk. }
    destruct (String.eqb token html_elem && negb (dict_mem res css)) eqn:C; simpl.
    + rewrite IH by assumption.
      apply andb_true_iff in C. destruct C as [_ C].
      apply negb_true_iff, dict_mem_not_In in C.
      rewrite (dict_set_new res css value C), <- app_assoc. simpl. do 3 f_equal.
      apply filter_ext_in. intros [k v] Hkv. simpl. f_equal. f_equal.
      rewrite <- (dict_set_new res css value C). apply dict_mem_set_other.
      intros ->. apply Hcss. apply (in_map fst) in Hkv. exact Hkv.
    + apply IH; assumption.
Qed.

Lemma selected_in_order_snoc (d : dict CssRule) (order : list string) (html_elem : string) :
  selected_in_order d (order ++ [html_elem])
  = if occurs order html_elem then selected_in_order d order
    else selected_in_order d order ++ selected d html_elem.
Proof.
  unfold selected_in_order. rewrite uniq_snoc.
  destruct (occurs order html_elem); [reflexivity|].
  rewrite flat_map_app. simpl. rewrite app_nil_r. reflexivity.
Qed.

Lemma selected_in_order_In (d : dict CssRule) (order : list string) (kv : string * CssRule) :
  In kv (selected_in_order d order)
  <-> In kv d /\ exists html_elem, In html_elem order /\ selects html_elem (fst kv) = true.
Proof.
  unfold selected_in_order, selected. rewrite in_flat_map. split.
  - intros (id & Hid & Hkv). apply filter_In in Hkv. rewrite uniq_In in Hid.
    split; [apply Hkv|]. exists id. tauto.
  - intros (Hkv & id & Hid & Hs). exists id. rewrite uniq_In, filter_In. tauto.
Qed.

(** The closed form of the sort by HTML order. *)
Lemma sort_css_by_html_selected (d : dict CssRule) (order : list string) :
  NoDup (keys d) ->
  (forall k, In k (keys d) -> exists token, leading_token k = Ok token) ->
  sort_css_by_html d order = Ok (selected_in_order d order).
Proof.
  intros Hnd Htok. unfold sort_css_by_html.
  induction order as [|html_elem order IH] using rev_ind; [reflexivity|].
  rewrite for_each_app, IH. cbn [bind for_each].
  rewrite (@by_html_inner html_elem d (selected_in_order d order) Hnd Htok).
  cbn [bind]. f_equal. rewrite selected_in_order_snoc.
  destruct (occurs order html_elem) eqn:O.
  - rewrite filter_none; [apply app_nil_r|].
    intros kv Hkv. destruct (selects html_elem (fst kv)) eqn:S; [|reflexivity].
    simpl. apply negb_false_iff, dict_mem_In.
    apply (in_map fst). apply selected_in_order_In. split; [exact Hkv|].
    exists html_elem. split; [apply occurs_In, O | exact S].
  - f_equal. apply filter_ext_in. intros kv Hkv.
    destruct (selects html_elem (fst kv)) eqn:S; [|reflexivity].
    simpl. apply negb_true_iff, dict_mem_not_In. intros Hin.
    apply in_map_iff in Hin. destruct Hin as (kv' & E & Hkv').
    apply selected_in_order_In in Hkv'. destruct Hkv' as (_ & id & Hid & S').
    rewrite E in S'. rewrite (selects_unique _ _ _ S S') in O.
    apply occurs_not_In in O. tauto.
Qed.

(** The sort by HTML order through the leading token as the code computes
    it: the selected entries, identifier by identifier, with unchanged
    rules. *)
Lemma sort_css_by_html_selection (d : dict CssRule) (order : list string) :
  NoDup (keys d) ->
  (forall k, In k (keys d) -> exists token, leading_token k = Ok token) ->
  exists out,
    sort_css_by_html d order = Ok out /\
    out = flat_map (fun html_elem => filter (fun kv => selects html_elem (fst kv)) d)
                   (uniq order) /\
    (forall k, In k (keys out) <->
               In k (keys d) /\ exists html_elem, In html_elem order /\
                                                 leading_token k = Ok html_elem) /\
    (forall k, In k (keys out) -> dict_get out k = dict_get d k).
Proof.
  intros Hnd Htok. exists (selected_in_order d order).
  split; [apply sort_css_by_html_selected; assumption|].
  split; [reflexivity|].
  split.
  - intros k. unfold keys. rewrite in_map_iff. split.
    + intros ([k' v] & E & Hkv). simpl in E. subst k'.
      apply selected_in_order_In in Hkv. destruct Hkv as (Hkv & id & Hid & S).
      split; [apply (in_map fst) in Hkv; exact Hkv|].
      exists id. split; [exact Hid|]. simpl in S. unfold selects in S.
      destruct (leading_token k) as [token|e]; [|discriminate].
      apply String.eqb_eq in S. congruence.
    + intros (Hk & id & Hid & Ht). apply in_map_iff in Hk.
      destruct Hk as (kv & E & Hkv). exists kv. split; [exact E|].
      apply selected_in_order_In. split; [exact Hkv|].
      exists id. split; [exact Hid|]. rewrite E.
      rewrite (selects_token id k Ht). apply String.eqb_refl.
  - intros k Hk.
    assert (NoDup (keys (selected_in_order d order))) as Hout.
    { apply (sort_css_by_html_invariant (fun res => NoDup (keys res)) d)
        with (order := order).
      - constructor.
      - intros res k' v' _ Hres. apply dict_set_NoDup, Hres.
      - apply sort_css_by_html_selected; assumption. }
    destruct (dict_get_In _ k Hk) as [v Hv]. rewrite Hv. symmetry.
    apply In_dict_get; [exact Hnd|].
    apply dict_get_Some_In in Hv. apply selected_in_order_In in Hv. apply Hv.
Qed.

(** The sample sorted by HTML order: [a:hover] and [a b] follow the
    identifier [a], in the order of the model, and [#a] is dropped. *)
Example html_order_sample :
  sort_css_by_html example_model ["b"; ".k"; "b"; "a"; "p"]
  = Ok [("b", example_rule); (".k", example_rule);
        ("a:hover", example_rule); ("a b", example_rule)].
Proof. reflexivity. Qed.

(** ** The model built by parsing *)

(** C1, as the code has it.  When the style rules have pairwise distinct
    selector texts, so that a selector repeats only through the comma groups
    of several blocks, the model lists the selectors in order of first
    encounter and maps each of them to the comments of the blocks that list
    it, concatenated in encounter order, and to their declaration lists,
    concatenated in encounter order and then sorted. *)
Theorem grouped_selectors_merged (rules : list CSSRule) :
  NoDup (selector_texts rules) ->
  exists model,
    parse rules = Ok model /\
    keys model = uniq (map fst (occurrences (blocks rules))) /\
    forall selector, In selector (keys model) ->
      dict_get model selector = Some (sorted_rule (concatenated_rule rules selector)).
Proof.
  intros Hnd. unfold parse. rewrite (css_to_dict_blocks rules Hnd). cbn [bind].
  eexists. split; [reflexivity|].
  rewrite format_css_dict_merged, keys_map_values, merged_dict_keys.
  split; [reflexivity|].
  intros selector Hs. rewrite uniq_In in Hs. apply occurs_In in Hs.
  rewrite dict_get_map_values, merged_dict_get, Hs. reflexivity.
Qed.

Lemma grouped_selectors_merged_witness :
  exists model,
    parse grouped_rules = Ok model /\
    keys model = uniq (map fst (occurrences (blocks grouped_rules))) /\
    forall selector, In selector (keys model) ->
      dict_get model selector
      = Some (sorted_rule (concatenated_rule grouped_rules selector)).
Proof.
  apply (grouped_selectors_merged grouped_rules). simpl. solve_NoDup.
Defined.

(** The sample: [a] gets both comments and both declarations, sorted. *)
Example grouped_rules_model :
  parse grouped_rules
  = Ok [("a", mkRule "/* links *//* more */" ["border: 0"; "z-index: 1"]);
        ("b", mkRule "/* links */" ["z-index: 1"])].
Proof. reflexivity. Qed.

(** C1 as stated fails: the declarations of a selector are not kept in
    encounter order, since the merged list is sorted. *)
Lemma merged_properties_not_in_encounter_order :
  ~ (forall rules model selector,
        parse rules = Ok model -> In selector (keys model) ->
        dict_get model selector = Some (concatenated_rule rules selector)).
Proof.
  intros H.
  specialize (H grouped_rules _ "a" eq_refl (or_introl eq_refl)).
  vm_compute in H. discriminate H.
Qed.

(** Two style rules with the same selector text: the second replaces the
    first in [css_to_dict], and the declarations of the first are lost. *)
Example repeated_rules_model :
  css_to_dict repeated_rules = Ok [("a", mkRaw "" "margin: 0")] /\
  parse repeated_rules = Ok [("a", mkRule "" ["margin: 0"])].
Proof. split; reflexivity. Qed.

(** C6.  Parsing always gives a model, every properties list of the model is
    in ascending order, and it is so after either sort. *)
Theorem properties_sorted_in_model (rules : list CSSRule) :
  exists model,
    parse rules = Ok model /\
    Forall props_sorted (values model) /\
    (exists out, sort_css_by_keys model = Ok out /\ Forall props_sorted (values out)) /\
    (forall order out,
        sort_css_by_html model order = Ok out -> Forall props_sorted (values out)).
Proof.
  destruct (parse_total rules) as (css_dict & _ & Hp).
  exists (format_css_dict css_dict). split; [exact Hp|].
  pose proof (format_css_dict_sorted css_dict) as Hs.
  split; [exact Hs|]. split.
  - eexists. split; [apply sort_css_by_keys_restrict, format_css_dict_NoDup|].
    apply restrict_values, Hs.
  - intros order out.
    apply (sort_css_by_html_invariant (fun res => Forall props_sorted (values res))).
    + constructor.
    + intros res k v Hin Hres. apply dict_set_values; [exact Hres|].
      rewrite Forall_forall in Hs. apply Hs. apply (in_map snd) in Hin. exact Hin.
Qed.

(** ** [generate_output_str] *)

Lemma output_lines (lines : list string) (acc : string) :
  fold_left (fun acc prop => acc ++ ("    " ++ prop ++ ";" ++ LF))%string lines acc
  = (acc ++ join (map (fun prop => "    " ++ prop ++ ";" ++ LF) lines))%string.
Proof.
  revert acc. induction lines as [|prop lines IH]; intros acc; simpl.
  - symmetry. apply str_app_nil_r.
  - rewrite IH, str_app_assoc. reflexivity.
Qed.

Lemma output_step_block (acc : string) (item : string * CssRule) :
  output_step acc item = (acc ++ block item)%string.
Proof.
  destruct item as [key value]. unfold output_step, block. cbn [fst snd].
  rewrite output_lines.
  destruct (truthy (comment value)); rewrite !str_app_assoc; reflexivity.
Qed.

Lemma output_blocks (d : dict CssRule) (acc : string) :
  fold_left output_step d acc = (acc ++ join (map block d))%string.
Proof.
  revert acc. induction d as [|item d IH]; intros acc; simpl.
  - symmetry. apply str_app_nil_r.
  - rewrite IH, output_step_block, str_app_assoc. reflexivity.
Qed.

(** C4, as the code has it.  The output is the concatenation, in order, of
    one block per selector: a newline, then the comment and a newline when
    the comment is not empty, then the selector, a space and an opening brace
    on one line, one line of four spaces, the property and a semicolon per
    property, and a closing brace on a line. *)
Theorem output_is_concatenation_of_blocks (d : dict CssRule) :
  generate_output_str d = join (map block d).
Proof.
  unfold generate_output_str. apply output_blocks.
Qed.

(** C4 as stated fails: a block with a comment starts with a newline, not
    with the comment. *)
Lemma commented_block_starts_with_newline :
  generate_output_str commented_model <> join (map block_comment_first commented_model).
Proof.
  vm_compute. discriminate.
Qed.

(** ** The generator, equation by equation *)

(** The recursive call of the generator on the list value of a tag key. *)
Lemma item_identifiers_tag (key : string) (value : list hdict) :
  item_identifiers (ETag key value)
  = (sub <- get_identifiers_in_order (inl value) ;;
     Ok ((if String.eqb key "attributes" then [] else [key]) ++ sub)).
Proof.
  cbn [item_identifiers get_identifiers_in_order].
  destruct value as [|first rest]; [reflexivity|].
  match goal with
  | |- bind (match ?fb first with Some _ => _ | None => ?x end) _ = _ =>
      change x with (walk_identifiers (first :: rest));
      assert (fb first = match body_of first with
                         | Some v => Some (walk_identifiers v)
                         | None => None
                         end) as ->
  end.
  { induction first as [|[a|k v] r IH]; [reflexivity | exact IH |].
    cbn [body_of]. destruct (String.eqb k "body"); [reflexivity | exact IH]. }
  destruct (body_of first); reflexivity.
Qed.

Lemma item_identifiers_attrs (a : Attrs) :
  item_identifiers (EAttrs a) = Ok (attrs_identifiers a).
Proof. reflexivity. Qed.

(** ** [dict.fromkeys] keeps first occurrences *)

Lemma fromkeys_snoc (l : list string) (x : string) :
  fromkeys (l ++ [x]) = if occurs (fromkeys l) x then fromkeys l else fromkeys l ++ [x].
Proof.
  unfold fromkeys. rewrite fold_left_app. simpl.
  set (d := fold_left (fun d k => dict_set d k tt) l []).
  destruct (occurs (keys d) x) eqn:O.
  - apply keys_dict_set_old, occurs_In, O.
  - apply occurs_not_In in O. rewrite dict_set_new by assumption.
    unfold keys. rewrite map_app. reflexivity.
Qed.

Lemma fromkeys_uniq (l : list string) : fromkeys l = uniq l.
Proof.
  induction l as [|x l IH] using rev_ind; [reflexivity|].
  rewrite fromkeys_snoc, uniq_snoc, IH.
  replace (occurs (uniq l) x) with (occurs l x); [reflexivity|].
  destruct (occurs l x) eqn:O; symmetry.
  - apply occurs_In, uniq_In, occurs_In, O.
  - apply occurs_not_In. rewrite uniq_In. apply occurs_not_In, O.
Qed.

Lemma uniq_first_occurrence (l1 l2 : list string) (x : string) :
  ~ In x l1 -> exists rest, uniq (l1 ++ x :: l2) = uniq l1 ++ x :: rest.
Proof.
  intros H. rewrite uniq_app. simpl.
  rewrite (proj2 (occurs_not_In l1 x) H). simpl. eauto.
Qed.

Lemma uniq_repeat_dropped (l1 l2 : list string) (x : string) :
  In x l1 -> uniq (l1 ++ x :: l2) = uniq (l1 ++ l2).
Proof.
  intros H. rewrite !uniq_app. simpl.
  rewrite (proj2 (occurs_In l1 x) H). simpl. f_equal.
  rewrite filter_twice. apply filter_ext. intros y.
  destruct (String.eqb_spec y x) as [->|]; simpl.
  - rewrite (proj2 (occurs_In l1 x) H). reflexivity.
  - reflexivity.
Qed.

(** C8.  The identifier sequence has no duplicates and keeps exactly the
    emitted identifiers; an identifier stands where its first occurrence
    puts it, right after the sequence of what was emitted before it, and a
    later repeat changes nothing. *)
Theorem identifier_sequence_first_occurrences
  (soup_contents : list PageElement) (emitted : list string) :
  identifiers_in_order soup_contents = Ok emitted ->
  exists ids,
    get_html_element_order soup_contents = Ok ids /\
    NoDup ids /\
    (forall x, In x ids <-> In x emitted) /\
    (forall l1 x l2, emitted = l1 ++ x :: l2 -> ~ In x l1 ->
                     exists rest, ids = fromkeys l1 ++ x :: rest) /\
    (forall l1 x l2, emitted = l1 ++ x :: l2 -> In x l1 -> ids = fromkeys (l1 ++ l2)).
Proof.
  intros He. unfold get_html_element_order. rewrite He. cbn [bind].
  eexists. split; [reflexivity|].
  rewrite fromkeys_uniq. split; [apply uniq_NoDup|].
  split; [intros x; apply uniq_In|]. split.
  - intros l1 x l2 -> Hx. rewrite fromkeys_uniq. apply uniq_first_occurrence, Hx.
  - intros l1 x l2 -> Hx. rewrite fromkeys_uniq. apply uniq_repeat_dropped, Hx.
Qed.

Lemma identifier_sequence_first_occurrences_witness :
  exists ids,
    get_html_element_order sample_page = Ok ids /\
    NoDup ids /\
    (forall x, In x ids <-> In x ["div"; "#main"; ".box"; ".wide"; "p"; "#q"; "span"; ".box"]) /\
    (forall l1 x l2,
        ["div"; "#main"; ".box"; ".wide"; "p"; "#q"; "span"; ".box"] = l1 ++ x :: l2 ->
        ~ In x l1 -> exists rest, ids = fromkeys l1 ++ x :: rest) /\
    (forall l1 x l2,
        ["div"; "#main"; ".box"; ".wide"; "p"; "#q"; "span"; ".box"] = l1 ++ x :: l2 ->
        In x l1 -> ids = fromkeys (l1 ++ l2)).
Proof.
  apply (identifier_sequence_first_occurrences sample_page). reflexivity.
Defined.

Example sample_page_order :
  get_html_element_order sample_page
  = Ok ["div"; "#main"; ".box"; ".wide"; "p"; "#q"; "span"].
Proof. reflexivity. Qed.

(** ** Failures *)

(** C9.  An element that has attributes and a child element named
    [attributes]: [recurse] stores the attribute mapping under the key
    [attributes] and then extends the value of the key named after the child;
    the extension of a mapping by a tuple raises [TypeError]. *)
Theorem attributes_child_raises :
  _parse attributes_page = Raise TypeError /\
  get_html_element_order attributes_page = Raise TypeError.
Proof. split; reflexivity. Qed.

(** A key without a leading token: [[0]] raises [IndexError] on the empty
    list of pieces. *)
Example empty_selector_raises :
  sort_css_by_html [("", example_rule)] ["a"] = Raise IndexError /\
  sort_css_by_html [(": ", example_rule)] ["a"] = Raise IndexError.
Proof. split; reflexivity. Qed.

(** ** [recurse] *)

Lemma PageElement_tree_ind (P : PageElement -> Prop) :
  (forall text, P (NavigableString text)) ->
  (forall name attrs contents, Forall P contents -> P (Tag name attrs contents)) ->
  forall e, P e.
Proof.
  intros Hs Ht. fix F 1. intros [text|name attrs contents]; [apply Hs|].
  apply Ht. induction contents as [|c cs IH]; constructor; [apply F | exact IH].
Qed.

(** The body of the loop of [recurse] on a tag, with the recursive call. *)
Lemma recurse_group_tag (cd : hdict) (name : string) (attrs : Attrs)
  (contents : list PageElement) :
  recurse_group cd (Tag name attrs contents)
  = (sub <- recurse contents (attrs_entry attrs) ;;
     hdict_extend (if negb (hdict_mem cd name) then hdict_new_list cd name else cd)
                  name sub).
Proof.
  cbn [recurse_group]. unfold recurse, attrs_entry.
  match goal with
  | |- bind (?loop contents _) _ = _ =>
      assert (forall gs acc, loop gs acc = for_each recurse_group gs acc) as ->
  end.
  { induction gs as [|g gs IH]; intros acc; simpl; [reflexivity|].
    destruct (recurse_group acc g); simpl; auto. }
  reflexivity.
Qed.

Lemma occurs_uniq (l : list string) (x : string) : occurs (uniq l) x = occurs l x.
Proof.
  destruct (occurs l x) eqn:O.
  - apply occurs_In, uniq_In, occurs_In, O.
  - apply occurs_not_In. rewrite uniq_In. apply occurs_not_In, O.
Qed.

Lemma tag_entries_mem (G : list (string * list hdict)) (n : string) :
  hdict_mem (map (fun g => ETag (fst g) (snd g)) G) n = occurs (map fst G) n.
Proof.
  unfold hdict_mem. induction G as [|[k v] G IH]; simpl; [reflexivity|].
  rewrite (String.eqb_sym n k). destruct (String.eqb k n); simpl; [reflexivity | exact IH].
Qed.

Lemma attrs_entry_mem (a : Attrs) (d : hdict) (n : string) :
  n <> "attributes" -> hdict_mem (attrs_entry a ++ d) n = hdict_mem d n.
Proof.
  intros Hn. unfold attrs_entry, hdict_mem.
  destruct (attrs_truthy a); cbn [app hdict_find entry_key]; [|reflexivity].
  destruct (String.eqb_spec "attributes" n); [congruence | reflexivity].
Qed.

Lemma attrs_entry_extend (a : Attrs) (d : hdict) (n : string) (x : hdict) :
  n <> "attributes" ->
  hdict_extend (attrs_entry a ++ d) n x
  = (r <- hdict_extend d n x ;; Ok (attrs_entry a ++ r)).
Proof.
  intros Hn. unfold attrs_entry.
  destruct (attrs_truthy a); cbn [app hdict_extend entry_key].
  - destruct (String.eqb_spec "attributes" n); [congruence | reflexivity].
  - destruct (hdict_extend d n x); reflexivity.
Qed.

Lemma tag_entries_extend_old (G : list (string * list hdict)) (n : string) (x : hdict) :
  NoDup (map fst G) -> In n (map fst G) ->
  hdict_extend (map (fun g => ETag (fst g) (snd g)) G) n x
  = Ok (map (fun g => ETag (fst g) (snd g))
            (map (fun g => (fst g, if String.eqb (fst g) n then snd g ++ [x] else snd g)) G)).
Proof.
  induction G as [|[k v] G IH]; simpl; [tauto|].
  intros Hnd Hin. inversion Hnd as [|? ? Hk HG]; subst.
  destruct (String.eqb_spec k n) as [->|Hkn].
  - do 2 f_equal. rewrite map_map. apply map_ext_in. intros [k' v'] Hg. simpl.
    destruct (String.eqb_spec k' n) as [->|]; [|reflexivity].
    exfalso. apply Hk. apply (in_map fst) in Hg. exact Hg.
  - rewrite IH; [reflexivity | exact HG | intuition congruence].
Qed.

Lemma tag_entries_extend_new (G : list (string * list hdict)) (n : string) (x : hdict) :
  ~ In n (map fst G) ->
  hdict_extend (hdict_new_list (map (fun g => ETag (fst g) (snd g)) G) n) n x
  = Ok (map (fun g => ETag (fst g) (snd g)) (G ++ [(n, [x])])).
Proof.
  unfold hdict_new_list. induction G as [|[k v] G IH]; simpl; intros Hn.
  - rewrite String.eqb_refl. reflexivity.
  - destruct (String.eqb_spec k n); [tauto|]. rewrite IH by tauto. reflexivity.
Qed.

(** Extending the list of the key [n] by [sub] records the child dict [sub]
    under the tag name [n]. *)
Lemma collect_child (a : Attrs) (P : list (string * hdict)) (n : string) (sub : hdict) :
  n <> "attributes" ->
  hdict_extend
    (if negb (hdict_mem (attrs_entry a ++ group_entries P) n)
     then hdict_new_list (attrs_entry a ++ group_entries P) n
     else attrs_entry a ++ group_entries P) n sub
  = Ok (attrs_entry a ++ group_entries (P ++ [(n, sub)])).
Proof.
  intros Hn. rewrite (attrs_entry_mem a _ Hn). unfold group_entries.
  rewrite tag_entries_mem, group_by_key_keys, occurs_uniq, group_by_key_snoc.
  destruct (occurs (map fst P) n) eqn:O; cbn [negb].
  - rewrite (attrs_entry_extend a _ _ Hn), tag_entries_extend_old.
    + reflexivity.
    + rewrite group_by_key_keys. apply uniq_NoDup.
    + rewrite group_by_key_keys. apply uniq_In, occurs_In, O.
  - unfold hdict_new_list. rewrite <- app_assoc.
    rewrite (attrs_entry_extend a _ _ Hn).
    change (map (fun g => ETag (fst g) (snd g)) (group_by_key P) ++ [ETag n []])
      with (hdict_new_list (map (fun g => ETag (fst g) (snd g)) (group_by_key P)) n).
    rewrite tag_entries_extend_new; [reflexivity|].
    rewrite group_by_key_keys, uniq_In. apply occurs_not_In, O.
Qed.

Lemma tag_pairs_cons (X : Type) (f : PageElement -> X) (c : PageElement)
  (cs : list PageElement) :
  tag_pairs f (c :: cs) = tag_pairs f [c] ++ tag_pairs f cs.
Proof.
  unfold tag_pairs. simpl. rewrite app_nil_r. reflexivity.
Qed.

(** The loop of [recurse] over nodes whose children are collected as their
    dicts. *)
Lemma recurse_nodes (nodes : list PageElement) :
  Forall (fun e => forall a P,
              recurse_group (attrs_entry a ++ group_entries P) e
              = Ok (attrs_entry a ++ group_entries (P ++ tag_pairs element_dict [e])))
         nodes ->
  forall a P,
    recurse nodes (attrs_entry a ++ group_entries P)
    = Ok (attrs_entry a ++ group_entries (P ++ tag_pairs element_dict nodes)).
Proof.
  unfold recurse. induction 1 as [|e nodes He Hnodes IH]; intros a P; cbn [for_each].
  - unfold tag_pairs. simpl. rewrite app_nil_r. reflexivity.
  - rewrite He. cbn [bind]. rewrite IH, (tag_pairs_cons element_dict e nodes), app_assoc.
    reflexivity.
Qed.

Lemma recurse_group_element (e : PageElement) :
  no_attributes_tag e = true ->
  forall a P,
    recurse_group (attrs_entry a ++ group_entries P) e
    = Ok (attrs_entry a ++ group_entries (P ++ tag_pairs element_dict [e])).
Proof.
  induction e as [text|name attrs contents IH] using PageElement_tree_ind; intros He a P.
  - unfold tag_pairs. simpl. rewrite app_nil_r. reflexivity.
  - cbn [no_attributes_tag] in He. apply andb_true_iff in He. destruct He as [Hn Hc].
    apply negb_true_iff, String.eqb_neq in Hn.
    rewrite recurse_group_tag.
    assert (recurse contents (attrs_entry attrs)
            = Ok (element_dict (Tag name attrs contents))) as ->.
    { assert (Forall (fun e => forall a P,
                  recurse_group (attrs_entry a ++ group_entries P) e
                  = Ok (attrs_entry a ++ group_entries (P ++ tag_pairs element_dict [e])))
                contents) as Hall.
      { rewrite Forall_forall in *. intros e He. apply IH; [exact He|].
        rewrite forallb_forall in Hc. apply Hc, He. }
      pose proof (recurse_nodes Hall attrs []) as R.
      unfold group_entries at 1 in R. cbn [group_by_key map uniq app] in R.
      rewrite app_nil_r in R. exact R. }
    cbn [bind]. rewrite (collect_child a P _ Hn). reflexivity.
Qed.

(** ** The identifiers of the dict of a tree *)

Lemma dict_identifiers_app (d1 d2 : hdict) :
  dict_identifiers (d1 ++ d2)
  = (a <- dict_identifiers d1 ;; b <- dict_identifiers d2 ;; Ok (a ++ b)).
Proof.
  induction d1 as [|e d1 IH]; cbn [app dict_identifiers].
  - cbn [bind]. destruct (dict_identifiers d2); reflexivity.
  - destruct (item_identifiers e) as [x|]; cbn [bind]; [|reflexivity]. rewrite IH.
    destruct (dict_identifiers d1) as [y|]; cbn [bind]; [|reflexivity].
    destruct (dict_identifiers d2) as [z|]; cbn [bind]; [|reflexivity].
    rewrite app_assoc. reflexivity.
Qed.

Lemma dict_identifiers_attrs (a : Attrs) :
  dict_identifiers (attrs_entry a) = Ok (attrs_identifiers a).
Proof.
  unfold attrs_entry. destruct (attrs_truthy a) eqn:T.
  - cbn [dict_identifiers item_identifiers bind]. rewrite app_nil_r. reflexivity.
  - destruct a as [[i|] [c|] [|o os]]; try discriminate T. reflexivity.
Qed.

Lemma walk_identifiers_map (l : list PageElement) :
  Forall (fun c => dict_identifiers (element_dict c) = Ok (element_identifiers c)) l ->
  walk_identifiers (map element_dict l) = Ok (List.concat (map element_identifiers l)).
Proof.
  induction 1 as [|c l Hc Hl IH]; cbn [map walk_identifiers List.concat]; [reflexivity|].
  rewrite Hc, IH. reflexivity.
Qed.

Lemma members_tag_pairs (X : Type) (f : PageElement -> X) (nodes : list PageElement)
  (k : string) :
  members (tag_pairs f nodes) k = map f (tags_named nodes k).
Proof.
  unfold members, tag_pairs, tags_named.
  induction nodes as [|[text|name attrs contents] nodes IH]; simpl; [reflexivity|exact IH|].
  destruct (String.eqb name k); simpl; rewrite IH; reflexivity.
Qed.

Lemma tag_pairs_names (X : Type) (f : PageElement -> X) (nodes : list PageElement) :
  map fst (tag_pairs f nodes) = tag_names nodes.
Proof.
  unfold tag_names, tag_pairs.
  induction nodes as [|[text|name attrs contents] nodes IH]; simpl; [reflexivity|exact IH|].
  rewrite IH. reflexivity.
Qed.

Lemma tags_named_In (nodes : list PageElement) (k : string) (c : PageElement) :
  In c (tags_named nodes k) ->
  In c nodes /\ exists attrs contents, c = Tag k attrs contents.
Proof.
  unfold tags_named. rewrite filter_In. intros [Hin Hc]. split; [exact Hin|].
  destruct c as [text|name attrs contents]; [discriminate|].
  apply String.eqb_eq in Hc. subst. eauto.
Qed.

Lemma tags_named_nonempty (nodes : list PageElement) (k : string) :
  In k (tag_names nodes) -> tags_named nodes k <> [].
Proof.
  rewrite <- (tag_pairs_names (fun _ => tt)). intros H.
  apply (members_present (X:=unit)) in H. rewrite members_tag_pairs in H.
  intros E. rewrite E in H. apply H. reflexivity.
Qed.

Lemma tag_names_In (nodes : list PageElement) (k : string) :
  In k (tag_names nodes) -> exists attrs contents, In (Tag k attrs contents) nodes.
Proof.
  intros H. apply tags_named_nonempty in H.
  destruct (tags_named nodes k) as [|c l] eqn:E; [congruence|].
  destruct (tags_named_In nodes k c) as (Hin & attrs & contents & ->).
  - rewrite E. left. reflexivity.
  - eauto.
Qed.

Lemma body_of_attrs_entry (a : Attrs) (d : hdict) :
  body_of (attrs_entry a ++ d) = body_of d.
Proof.
  unfold attrs_entry. destruct (attrs_truthy a); reflexivity.
Qed.

Lemma body_of_group_entries (P : list (string * hdict)) :
  ~ In "body" (map fst P) -> body_of (group_entries P) = None.
Proof.
  intros H. unfold group_entries.
  assert (~ In "body" (map fst (group_by_key P))) as HG.
  { rewrite group_by_key_keys, uniq_In. exact H. }
  induction (group_by_key P) as [|[k v] G IH]; [reflexivity|].
  cbn [map body_of fst snd]. simpl in HG.
  destruct (String.eqb_spec k "body"); [tauto|]. apply IH. tauto.
Qed.


Lemma plain_names (nodes : list PageElement) (k : string) :
  forallb plain nodes = true -> In k (tag_names nodes) ->
  k <> "body" /\ k <> "attributes".
Proof.
  intros Hp Hk. destruct (tag_names_In nodes k Hk) as (attrs & contents & Hin).
  rewrite forallb_forall in Hp. specialize (Hp _ Hin). cbn [plain] in Hp.
  rewrite !andb_true_iff, !negb_true_iff, !String.eqb_neq in Hp. tauto.
Qed.


Lemma body_of_plain (c : PageElement) : plain c = true -> body_of (element_dict c) = None.
Proof.
  destruct c as [text|name attrs contents]; [reflexivity|].
  cbn [plain element_dict]. rewrite !andb_true_iff. intros [_ Hc].
  rewrite body_of_attrs_entry. apply body_of_group_entries.
  rewrite tag_pairs_names. intros H. apply (plain_names contents "body" Hc) in H. tauto.
Qed.

(** The entries of the groups [ks] of the children [cs] and their
    identifiers. *)
Lemma groups_identifiers (cs : list PageElement) (ks : list string) :
  Forall (fun c => dict_identifiers (element_dict c) = Ok (element_identifiers c)) cs ->
  forallb plain cs = true ->
  incl ks (tag_names cs) ->
  dict_identifiers (map (fun k => ETag k (members (tag_pairs element_dict cs) k)) ks)
  = Ok (flat_map (fun k => k :: List.concat (members (tag_pairs element_identifiers cs) k))
                 ks).
Proof.
  intros HQ Hp. induction ks as [|k ks IH]; intros Hks; [reflexivity|].
  cbn [map dict_identifiers flat_map].
  assert (In k (tag_names cs)) as Hk by (apply Hks; left; reflexivity).
  rewrite item_identifiers_tag, !members_tag_pairs.
  destruct (plain_names cs k Hp Hk) as [_ Hattr].
  apply String.eqb_neq in Hattr. rewrite Hattr.
  assert (Forall (fun c => dict_identifiers (element_dict c) = Ok (element_identifiers c))
                 (tags_named cs k)) as HQk.
  { rewrite Forall_forall in *. intros c Hc. apply HQ. apply (tags_named_In cs k c Hc). }
  pose proof (tags_named_nonempty cs k Hk) as Hne.
  pose proof (walk_identifiers_map HQk) as Hw.
  destruct (tags_named cs k) as [|c0 l] eqn:E; [congruence|].
  cbn [map get_identifiers_in_order].
  rewrite body_of_plain.
  - cbn [map] in Hw. rewrite Hw. cbn [bind].
    rewrite IH by (intros x Hx; apply Hks; right; exact Hx). reflexivity.
  - rewrite forallb_forall in Hp. apply Hp.
    apply (tags_named_In cs k c0). rewrite E. left. reflexivity.
Qed.

Lemma siblings_dict_identifiers (cs : list PageElement) :
  Forall (fun c => dict_identifiers (element_dict c) = Ok (element_identifiers c)) cs ->
  forallb plain cs = true ->
  dict_identifiers (group_entries (tag_pairs element_dict cs))
  = Ok (siblings_identifiers cs).
Proof.
  intros HQ Hp. unfold group_entries, siblings_identifiers, group_identifiers, group_by_key.
  rewrite map_map, !tag_pairs_names. cbn [fst snd].
  rewrite (@groups_identifiers cs (uniq (tag_names cs)) HQ Hp).
  - f_equal. induction (uniq (tag_names cs)) as [|k ks IH]; [reflexivity|].
    cbn [map flat_map fst snd]. rewrite IH. reflexivity.
  - intros k Hk. apply uniq_In, Hk.
Qed.

(** The identifiers yielded for the dict of an element. *)
Lemma element_dict_identifiers (e : PageElement) :
  plain e = true -> dict_identifiers (element_dict e) = Ok (element_identifiers e).
Proof.
  induction e as [text|name attrs contents IH] using PageElement_tree_ind; [reflexivity|].
  cbn [plain]. rewrite !andb_true_iff. intros [_ Hc].
  cbn [element_dict element_identifiers].
  rewrite dict_identifiers_app, dict_identifiers_attrs. cbn [bind].
  rewrite siblings_dict_identifiers; [reflexivity | | exact Hc].
  rewrite Forall_forall in *. intros c Hin. apply IH; [exact Hin|].
  rewrite forallb_forall in Hc. apply Hc, Hin.
Qed.

Lemma parse_nodes (nodes : list PageElement) :
  forallb no_attributes_tag nodes = true ->
  _parse nodes = Ok (group_entries (tag_pairs element_dict nodes)).
Proof.
  intros H. unfold _parse.
  assert (Forall (fun e => forall a P,
              recurse_group (attrs_entry a ++ group_entries P) e
              = Ok (attrs_entry a ++ group_entries (P ++ tag_pairs element_dict [e])))
            nodes) as Hall.
  { rewrite Forall_forall. intros e He. apply recurse_group_element.
    rewrite forallb_forall in H. apply H, He. }
  exact (recurse_nodes Hall no_attrs []).
Qed.


(** The sample: [div] once for both [div] elements, [p] once for both [p]
    elements and before [span]. *)
Example sample_page_identifiers :
  identifiers_in_order sample_page
  = Ok ["div"; "#main"; ".box"; ".wide"; "p"; "#q"; "span"; ".box"].
Proof. reflexivity. Qed.


(** ** Where the operations return *)

Lemma walk_identifiers_returns (l : list PageElement) :
  Forall (fun c => returns (dict_identifiers (element_dict c))) l ->
  returns (walk_identifiers (map element_dict l)).
Proof.
  induction 1 as [|c l [x Hc] Hl [y IH]]; cbn [map walk_identifiers].
  - eexists. reflexivity.
  - rewrite Hc, IH. eexists. reflexivity.
Qed.

Lemma body_of_groups (P : list (string * hdict)) (ks : list string) :
  body_of (map (fun k => ETag k (members P k)) ks)
  = if occurs ks "body" then Some (members P "body") else None.
Proof.
  induction ks as [|k ks IH]; [reflexivity|].
  cbn [map body_of]. unfold occurs. cbn [existsb].
  rewrite (String.eqb_sym "body" k).
  destruct (String.eqb_spec k "body") as [->|]; [reflexivity | exact IH].
Qed.

Lemma body_of_element_dict (c : PageElement) :
  body_of (element_dict c)
  = if occurs (tag_names (contents_of c)) "body"
    then Some (map element_dict (tags_named (contents_of c) "body"))
    else None.
Proof.
  destruct c as [text|name attrs contents]; [reflexivity|].
  cbn [element_dict contents_of]. rewrite body_of_attrs_entry.
  unfold group_entries, group_by_key. rewrite map_map. cbn [fst snd].
  rewrite body_of_groups, tag_pairs_names, occurs_uniq, members_tag_pairs.
  reflexivity.
Qed.

(** The generator returns on a non-empty list of element dicts when it
    returns on the dict of every listed element and of every child of the
    first one. *)
Lemma list_identifiers_returns (c0 : PageElement) (l : list PageElement) :
  Forall (fun c => returns (dict_identifiers (element_dict c))) (c0 :: l) ->
  Forall (fun c => returns (dict_identifiers (element_dict c))) (contents_of c0) ->
  returns (get_identifiers_in_order (inl (map element_dict (c0 :: l)))).
Proof.
  intros Hl H0. cbn [map get_identifiers_in_order]. rewrite body_of_element_dict.
  destruct (occurs (tag_names (contents_of c0)) "body").
  - destruct (@walk_identifiers_returns (tags_named (contents_of c0) "body")) as [x Hx].
    + rewrite Forall_forall in *. intros c Hc. apply H0.
      apply (tags_named_In _ _ _ Hc).
    + rewrite Hx. eexists. reflexivity.
  - apply (walk_identifiers_returns Hl).
Qed.

Lemma groups_identifiers_return (cs : list PageElement) (ks : list string) :
  Forall (fun c => returns (dict_identifiers (element_dict c)) /\
                   Forall (fun g => returns (dict_identifiers (element_dict g)))
                          (contents_of c)) cs ->
  incl ks (tag_names cs) ->
  returns (dict_identifiers
             (map (fun k => ETag k (members (tag_pairs element_dict cs) k)) ks)).
Proof.
  intros HS. induction ks as [|k ks IH]; intros Hks.
  - eexists. reflexivity.
  - cbn [map dict_identifiers].
    assert (In k (tag_names cs)) as Hk by (apply Hks; left; reflexivity).
    rewrite item_identifiers_tag, members_tag_pairs.
    pose proof (tags_named_nonempty cs k Hk) as Hne.
    assert (Forall (fun c => returns (dict_identifiers (element_dict c)) /\
                             Forall (fun g => returns (dict_identifiers (element_dict g)))
                                    (contents_of c)) (tags_named cs k)) as HSk.
    { rewrite Forall_forall in *. intros c Hc. apply HS. apply (tags_named_In cs k c Hc). }
    destruct (tags_named cs k) as [|c0 l]; [congruence|].
    destruct (@list_identifiers_returns c0 l) as [x Hx].
    + rewrite Forall_forall in *. intros c Hc. apply HSk, Hc.
    + inversion HSk as [|? ? [_ H0] _]; subst. exact H0.
    + rewrite Hx. cbn [bind].
      destruct IH as [y Hy]; [intros z Hz; apply Hks; right; exact Hz|].
      rewrite Hy. eexists. reflexivity.
Qed.

Lemma element_dict_returns (e : PageElement) :
  returns (dict_identifiers (element_dict e)) /\
  Forall (fun g => returns (dict_identifiers (element_dict g))) (contents_of e).
Proof.
  induction e as [text|name attrs contents IH] using PageElement_tree_ind.
  - split; [eexists; reflexivity | constructor].
  - split.
    + cbn [element_dict]. rewrite dict_identifiers_app, dict_identifiers_attrs. cbn [bind].
      unfold group_entries, group_by_key. rewrite map_map. cbn [fst snd].
      destruct (@groups_identifiers_return contents
                  (uniq (map fst (tag_pairs element_dict contents))) IH) as [x Hx].
      * rewrite tag_pairs_names. intros k Hk. apply uniq_In, Hk.
      * rewrite Hx. eexists. reflexivity.
    + cbn [contents_of]. rewrite Forall_forall in *. intros c Hc. apply IH, Hc.
Qed.

Lemma html_of_groups (P : list (string * hdict)) (ks : list string) :
  html_of (map (fun k => ETag k (members P k)) ks)
  = if occurs ks "html" then Some (inl (members P "html")) else None.
Proof.
  induction ks as [|k ks IH]; [reflexivity|].
  cbn [map html_of]. unfold occurs. cbn [existsb].
  rewrite (String.eqb_sym "html" k).
  destruct (String.eqb_spec k "html") as [->|]; [reflexivity | exact IH].
Qed.

(** Flattening returns for every tree without an element named
    [attributes]. *)
Theorem flattening_returns (nodes : list PageElement) :
  forallb no_attributes_tag nodes = true ->
  exists ids, get_html_element_order nodes = Ok ids.
Proof.
  intros Hn. unfold get_html_element_order, identifiers_in_order.
  rewrite (parse_nodes nodes Hn). cbn [bind].
  assert (Forall (fun c => returns (dict_identifiers (element_dict c)) /\
                           Forall (fun g => returns (dict_identifiers (element_dict g)))
                                  (contents_of c)) nodes) as HS.
  { rewrite Forall_forall. intros c _. apply element_dict_returns. }
  unfold group_entries, group_by_key. rewrite map_map. cbn [fst snd].
  rewrite html_of_groups, tag_pairs_names, occurs_uniq, members_tag_pairs.
  destruct (occurs (tag_names nodes) "html") eqn:O.
  - apply occurs_In in O. pose proof (tags_named_nonempty nodes "html" O) as Hne.
    destruct (tags_named nodes "html") as [|c0 l] eqn:E; [congruence|].
    destruct (@list_identifiers_returns c0 l) as [x Hx].
    + rewrite Forall_forall. intros c _. apply element_dict_returns.
    + apply element_dict_returns.
    + rewrite Hx. eexists. reflexivity.
  - destruct (@groups_identifiers_return nodes (uniq (tag_names nodes)) HS) as [x Hx].
    + intros k Hk. apply uniq_In, Hk.
    + cbn [get_identifiers_in_order]. rewrite Hx. eexists. reflexivity.
Qed.

(** The CSS side returns: parsing and the lexicographic sort always, the
    sort by HTML order when every selector of the model has a leading
    token; the serializer is a function. *)
Theorem css_side_returns (rules : list CSSRule) :
  exists model,
    parse rules = Ok model /\
    (exists out, sort_css_by_keys model = Ok out) /\
    (forall order,
        (forall k, In k (keys model) -> exists token, leading_token k = Ok token) ->
        exists out, sort_css_by_html model order = Ok out).
Proof.
  destruct (parse_total rules) as (css_dict & _ & Hp).
  exists (format_css_dict css_dict). split; [exact Hp|]. split.
  - eexists. apply sort_css_by_keys_restrict, format_css_dict_NoDup.
  - intros order Htok. eexists.
    apply sort_css_by_html_selected; [apply format_css_dict_NoDup | exact Htok].
Qed.

(** ** A document with [html] and [body] *)

Lemma tag_names_named (nodes : list PageElement) (k : string) (c : PageElement)
  (l : list PageElement) :
  tags_named nodes k = c :: l -> In k (tag_names nodes).
Proof.
  intros E.
  destruct (tags_named_In nodes k c) as (Hin & attrs & contents & ->);
    [rewrite E; left; reflexivity|].
  clear E. unfold tag_names, tag_pairs.
  induction nodes as [|[text|name a cs] nodes IH]; simpl in *; [tauto| |].
  - destruct Hin as [Hin|Hin]; [discriminate | auto].
  - destruct Hin as [[= -> _ _]|Hin]; auto.
Qed.

Lemma children_dict_identifiers (e : PageElement) :
  forallb plain (contents_of e) = true ->
  dict_identifiers (element_dict e) = Ok (element_identifiers e).
Proof.
  destruct e as [text|name attrs contents]; [reflexivity|].
  cbn [contents_of element_dict element_identifiers]. intros Hc.
  rewrite dict_identifiers_app, dict_identifiers_attrs. cbn [bind].
  rewrite siblings_dict_identifiers; [reflexivity | | exact Hc].
  rewrite Forall_forall. intros c Hin. apply element_dict_identifiers.
  rewrite forallb_forall in Hc. apply Hc, Hin.
Qed.

(** X21.  The entry of the traversal.  When the first top-level [html] element has
    [body] children, the generator yields [body] and then, for each of these
    [body] elements in order, its [#id], its classes and the identifiers of
    its children grouped by tag name; the rest of the document is not
    visited. *)
Theorem document_identifiers (nodes : list PageElement)
  (html0 body0 : PageElement) (htmls bodies : list PageElement) :
  forallb no_attributes_tag nodes = true ->
  tags_named nodes "html" = html0 :: htmls ->
  tags_named (contents_of html0) "body" = body0 :: bodies ->
  Forall (fun b => forallb plain (contents_of b) = true) (body0 :: bodies) ->
  identifiers_in_order nodes
  = Ok ("body" :: List.concat (map element_identifiers (body0 :: bodies))).
Proof.
  intros Hn Hhtml Hbody Hplain.
  unfold identifiers_in_order. rewrite (parse_nodes nodes Hn). cbn [bind].
  unfold group_entries, group_by_key. rewrite map_map. cbn [fst snd].
  rewrite html_of_groups, tag_pairs_names, occurs_uniq, members_tag_pairs.
  rewrite (proj2 (occurs_In _ _) (tag_names_named nodes "html" Hhtml)), Hhtml.
  cbn [map get_identifiers_in_order]. rewrite body_of_element_dict.
  rewrite (proj2 (occurs_In _ _) (tag_names_named (contents_of html0) "body" Hbody)), Hbody.
  rewrite walk_identifiers_map; [reflexivity|].
  rewrite Forall_forall in *. intros b Hb. apply children_dict_identifiers, Hplain, Hb.
Qed.

Example sample_document_order :
  get_html_element_order sample_document = Ok ["body"; ".home"; "div"; "#main"; "p"].
Proof. reflexivity. Qed.

(** ** The primitives on samples *)

Example strip_samples :
  strip "  a b  " = "a b" /\ strip ("  " ++ LF)%string = "" /\ strip "" = "" /\
  strip (LF ++ "margin: 0" ++ LF)%string = "margin: 0".
Proof. repeat split; reflexivity. Qed.

Example split_samples :
  split_on (is_char ","%char) "a,,b," = ["a"; ""; "b"; ""] /\
  split_on (is_char ";"%char) "" = [""] /\
  split_properties ("color: red;" ++ LF ++ "margin: 0")%string = ["color: red"; "margin: 0"].
Proof. repeat split; reflexivity. Qed.

Example sorted_sample :
  sorted ["b"; "a"; "B"; "ab"; ""; "a"] = [""; "B"; "a"; "a"; "ab"; "b"].
Proof. reflexivity. Qed.

Example leading_token_samples :
  leading_token "a:hover" = Ok "a" /\ leading_token ".card > .title" = Ok ".card" /\
  leading_token "::before" = Ok "before" /\ leading_token " : " = Raise IndexError.
Proof. repeat split; reflexivity. Qed.

Example output_sample :
  generate_output_str commented_model
  = (LF ++ "/* note */" ++ LF ++ ".x {" ++ LF ++ "    color: red;" ++ LF ++ "}" ++ LF)%string.
Proof. reflexivity. Qed.

Example lexicographic_sample :
  sort_css_by_keys example_model
  = Ok [("a b", example_rule); ("a:hover", example_rule); ("b", example_rule);
        ("#a", example_rule); (".k", example_rule)].
Proof. reflexivity. Qed.

(** * Further properties of the code *)

(** ** [css_to_dict]: assignments in order *)

Lemma dict_set_twice (V : Type) (d : dict V) (k : string) (v1 v2 : V) :
  dict_set (dict_set d k v1) k v2 = dict_set d k v2.
Proof.
  induction d as [|[k' v'] d IH]; simpl.
  - rewrite String.eqb_refl. reflexivity.
  - destruct (String.eqb k' k) eqn:E; simpl; rewrite E; [reflexivity|].
    rewrite IH. reflexivity.
Qed.

Lemma style_step_set (d : dict RawRule) (c sel p : string) :
  css_to_dict_step (d, c) (CSSStyleRule sel p) = Ok (dict_set d sel (mkRaw c p), "").
Proof.
  unfold css_to_dict_step, dict_setdefault, dict_modify, dict_getitem.
  destruct (dict_mem d sel) eqn:M; cbn [negb].
  - apply dict_mem_In in M. destruct (dict_get_In d sel M) as [v Hv].
    rewrite Hv. cbn [bind]. rewrite dict_get_set_same. cbn [bind].
    rewrite dict_set_twice. reflexivity.
  - rewrite dict_get_set_same. cbn [bind]. rewrite dict_get_set_same. cbn [bind].
    rewrite !dict_set_twice. reflexivity.
Qed.

Lemma css_to_dict_loop_update (rules : list CSSRule) (d : dict RawRule) (c : string) :
  exists c', for_each css_to_dict_step rules (d, c)
             = Ok (dict_update d (blocks_from c rules), c').
Proof.
  revert d c. induction rules as [|[text|sel p] rules IH]; intros d c.
  - eexists. reflexivity.
  - cbn [for_each blocks_from]. cbn [css_to_dict_step bind]. apply IH.
  - cbn [for_each blocks_from]. rewrite style_step_set. cbn [bind].
    destruct (IH (dict_set d sel (mkRaw c p)) "") as [c' ->]. eexists. reflexivity.
Qed.

Lemma dict_update_snoc (V : Type) (d : dict V) (items : list (string * V))
  (k : string) (v : V) :
  dict_update d (items ++ [(k, v)]) = dict_set (dict_update d items) k v.
Proof.
  unfold dict_update. rewrite fold_left_app. reflexivity.
Qed.

Lemma keys_dict_set (V : Type) (d : dict V) (k : string) (v : V) :
  keys (dict_set d k v) = if occurs (keys d) k then keys d else keys d ++ [k].
Proof.
  destruct (occurs (keys d) k) eqn:O.
  - apply keys_dict_set_old, occurs_In, O.
  - apply occurs_not_In in O. rewrite dict_set_new by assumption.
    unfold keys. rewrite map_app. reflexivity.
Qed.

Lemma dict_update_keys (V : Type) (items : list (string * V)) :
  keys (dict_update [] items) = uniq (map fst items).
Proof.
  induction items as [|[k v] items IH] using rev_ind; [reflexivity|].
  rewrite dict_update_snoc, keys_dict_set, IH, map_app. cbn [map fst].
  rewrite uniq_snoc, occurs_uniq. reflexivity.
Qed.

Lemma dict_update_get (V : Type) (items : list (string * V)) (k : string) :
  dict_get (dict_update [] items) k = last_assigned items k.
Proof.
  unfold last_assigned.
  induction items as [|[k' v] items IH] using rev_ind; [reflexivity|].
  rewrite dict_update_snoc, members_app, members_one, rev_app_distr.
  destruct (String.eqb_spec k' k) as [->|Hne].
  - rewrite dict_get_set_same. reflexivity.
  - rewrite dict_get_set_other by congruence. exact IH.
Qed.

(** On a sheet of comments and style rules the loop over any rule object is
    the loop of [css_to_dict]; at the first rule without [selectorText] it
    raises [AttributeError]. *)
Lemma css_to_dict_any_loop (sheet : list SheetRule) (st : dict RawRule * string) :
  for_each css_to_dict_any_step sheet st
  = match plain_rules sheet with
    | Some rules => for_each css_to_dict_step rules st
    | None => Raise AttributeError
    end.
Proof.
  revert st. induction sheet as [|[r|text] sheet IH]; intros st.
  - reflexivity.
  - cbn [for_each plain_rules css_to_dict_any_step].
    destruct (css_to_dict_loop_total [r] st) as [st' H].
    cbn [for_each] in H. destruct (css_to_dict_step st r) as [st1|e] eqn:E.
    + cbn [bind]. rewrite IH. destruct (plain_rules sheet); [|reflexivity].
      cbn [for_each]. rewrite E. reflexivity.
    + discriminate H.
  - reflexivity.
Qed.

Lemma css_to_dict_any_outcome (sheet : list SheetRule) :
  css_to_dict_any sheet
  = match plain_rules sheet with
    | Some rules => css_to_dict rules
    | None => Raise AttributeError
    end.
Proof.
  unfold css_to_dict_any, css_to_dict, css_to_dict_loop.
  rewrite css_to_dict_any_loop. destruct (plain_rules sheet); reflexivity.
Qed.

(** X1.  On a sheet with a rule that has no [selectorText] (an at-rule)
    [css_to_dict] raises [AttributeError].  On a sheet of comments and
    style rules it returns a dict with one entry per distinct selector text,
    at the position of its first occurrence, and the entry holds the pending
    comment and the declarations of the last style rule with that selector
    text: earlier ones are overwritten. *)
Theorem css_to_dict_last_rule_wins (sheet : list SheetRule) :
  match plain_rules sheet with
  | Some rules =>
      exists css_dict,
        css_to_dict_any sheet = Ok css_dict /\
        css_to_dict rules = Ok css_dict /\
        keys css_dict = uniq (selector_texts rules) /\
        forall selectorText,
          dict_get css_dict selectorText = last_assigned (blocks rules) selectorText
  | None => css_to_dict_any sheet = Raise AttributeError
  end.
Proof.
  rewrite css_to_dict_any_outcome.
  destruct (plain_rules sheet) as [rules|]; [|reflexivity].
  destruct (css_to_dict_loop_update rules [] "") as [c' H].
  assert (css_to_dict rules = Ok (dict_update [] (blocks rules))) as E.
  { unfold css_to_dict, css_to_dict_loop, dict in *. rewrite H. reflexivity. }
  exists (dict_update [] (blocks rules)). repeat split.
  - exact E.
  - exact E.
  - apply dict_update_keys.
  - apply dict_update_get.
Qed.

(** ** What [strip], [replace] and the splits leave in a string *)

Lemma lstrip_head (s : string) :
  lstrip s = "" \/ exists c r, lstrip s = String c r /\ isspace c = false.
Proof.
  induction s as [|c s IH]; [left; reflexivity|].
  cbn [lstrip]. destruct (isspace c) eqn:E; [exact IH|].
  right. exists c, s. split; [reflexivity | exact E].
Qed.

Lemma rstrip_idem (s : string) : rstrip (rstrip s) = rstrip s.
Proof.
  induction s as [|c s IH]; [reflexivity|].
  cbn [rstrip]. destruct (rstrip s) as [|c' r'] eqn:E.
  - destruct (isspace c) eqn:Ec; [reflexivity|]. cbn [rstrip]. rewrite Ec. reflexivity.
  - cbn [rstrip] in *. rewrite IH. reflexivity.
Qed.

Lemma rstrip_keeps_head (c : ascii) (r : string) :
  isspace c = false -> exists r', rstrip (String c r) = String c r'.
Proof.
  intros Ec. cbn [rstrip]. destruct (rstrip r); [rewrite Ec|]; eauto.
Qed.

Lemma strip_idem (s : string) : strip (strip s) = strip s.
Proof.
  unfold strip. destruct (lstrip_head s) as [E|(c & r & E & Ec)]; rewrite E.
  - reflexivity.
  - destruct (rstrip_keeps_head c r Ec) as [r' Er]. rewrite Er.
    cbn [lstrip]. rewrite Ec, <- Er. apply rstrip_idem.
Qed.

Lemma all_chars_lstrip (P : ascii -> bool) (s : string) :
  all_chars P s = true -> all_chars P (lstrip s) = true.
Proof.
  induction s as [|c s IH]; [reflexivity|].
  cbn [lstrip]. destruct (isspace c); [|tauto].
  cbn [all_chars]. rewrite andb_true_iff. intros [_ H]. apply IH, H.
Qed.

Lemma all_chars_rstrip (P : ascii -> bool) (s : string) :
  all_chars P s = true -> all_chars P (rstrip s) = true.
Proof.
  induction s as [|c s IH]; [reflexivity|].
  cbn [all_chars rstrip]. rewrite andb_true_iff. intros [Hc Hs].
  specialize (IH Hs). destruct (rstrip s) as [|c' r'].
  - destruct (isspace c); [reflexivity|]. cbn [all_chars]. rewrite Hc. reflexivity.
  - cbn [all_chars] in *. rewrite Hc, IH. reflexivity.
Qed.

Lemma all_chars_strip (P : ascii -> bool) (s : string) :
  all_chars P s = true -> all_chars P (strip s) = true.
Proof.
  intros H. apply all_chars_rstrip, all_chars_lstrip, H.
Qed.

Lemma all_chars_remove_char (P : ascii -> bool) (c : ascii) (s : string) :
  all_chars P s = true -> all_chars P (remove_char c s) = true.
Proof.
  induction s as [|a s IH]; [reflexivity|].
  cbn [all_chars remove_char]. rewrite andb_true_iff. intros [Ha Hs].
  destruct (Ascii.eqb a c); [apply IH, Hs|].
  cbn [all_chars]. rewrite Ha, (IH Hs). reflexivity.
Qed.

Lemma remove_char_removes (c : ascii) (s : string) :
  all_chars (fun a => negb (Ascii.eqb a c)) (remove_char c s) = true.
Proof.
  induction s as [|a s IH]; [reflexivity|].
  cbn [remove_char]. destruct (Ascii.eqb a c) eqn:E; [exact IH|].
  cbn [all_chars]. rewrite E, IH. reflexivity.
Qed.

Lemma split_on_pieces (sep : ascii -> bool) (s : string) :
  Forall (fun piece => all_chars (fun a => negb (sep a)) piece = true) (split_on sep s).
Proof.
  induction s as [|c s IH]; [repeat constructor|].
  cbn [split_on]. destruct (sep c) eqn:E.
  - constructor; [reflexivity | exact IH].
  - destruct (split_on sep s) as [|piece pieces].
    + repeat constructor. cbn [all_chars]. rewrite E. reflexivity.
    + inversion IH as [|? ? Hp Hps]; subst. constructor; [|exact Hps].
      cbn [all_chars]. rewrite E, Hp. reflexivity.
Qed.

Lemma split_on_length (sep : ascii -> bool) (s : string) :
  List.length (split_on sep s) = S (count_chars sep s).
Proof.
  induction s as [|c s IH]; [reflexivity|].
  cbn [split_on count_chars]. destruct (sep c).
  - cbn [List.length]. rewrite IH. reflexivity.
  - destruct (split_on sep s) as [|piece pieces]; [discriminate IH|].
    cbn [List.length] in *. exact IH.
Qed.

Lemma split_properties_length (props_text : string) :
  List.length (split_properties props_text)
  = S (count_chars (is_char ";"%char) props_text).
Proof.
  unfold split_properties. rewrite length_map. apply split_on_length.
Qed.

Lemma split_on_snoc_sep (sep : ascii -> bool) (c : ascii) (s : string) :
  sep c = true ->
  split_on sep (s ++ String c "")%string = split_on sep s ++ [""].
Proof.
  intros Hc. induction s as [|a s IH].
  - cbn [String.append split_on]. rewrite Hc. reflexivity.
  - cbn [String.append split_on]. rewrite IH.
    destruct (sep a); [reflexivity|].
    destruct (split_on sep s) as [|x xs] eqn:E; [|reflexivity].
    pose proof (split_on_length sep s) as L. rewrite E in L. discriminate L.
Qed.

(** X4.  A declaration text with [n] semicolons gives [n + 1] properties:
    the empty text gives one empty property, and a semicolon at the end adds
    an empty last property. *)
Theorem split_properties_count (props_text : string) :
  List.length (split_properties props_text)
  = S (count_chars (is_char ";"%char) props_text) /\
  split_properties "" = [""] /\
  split_properties (props_text ++ ";")%string = split_properties props_text ++ [""].
Proof.
  split; [apply split_properties_length|]. split; [reflexivity|].
  unfold split_properties. rewrite split_on_snoc_sep by reflexivity.
  rewrite map_app. reflexivity.
Qed.

Lemma split_properties_clean (props_text p : string) :
  In p (split_properties props_text) -> clean_prop p.
Proof.
  unfold split_properties. intros Hp. apply in_map_iff in Hp.
  destruct Hp as (piece & <- & Hin). split; [apply strip_idem|]. split.
  - apply all_chars_strip, remove_char_removes.
  - apply all_chars_strip, all_chars_remove_char.
    pose proof (split_on_pieces (is_char ";"%char) props_text) as H.
    rewrite Forall_forall in H. apply (H piece Hin).
Qed.

Lemma occurrences_keys_clean (bs : list (string * RawRule)) (k : string) :
  In k (map fst (occurrences bs)) -> clean_key k.
Proof.
  unfold occurrences. intros Hk. apply in_map_iff in Hk.
  destruct Hk as ([k' b] & E & Hin). simpl in E. subst k'.
  apply in_flat_map in Hin. destruct Hin as (blk & _ & Hin).
  apply in_map_iff in Hin. destruct Hin as (sel & [= <- _] & Hsel).
  split; [apply strip_idem|]. apply all_chars_strip.
  pose proof (split_on_pieces (is_char ","%char) (fst blk)) as H.
  rewrite Forall_forall in H. apply (H sel Hsel).
Qed.

(** X2.  Every key of the model built by parsing is stripped (stripping it
    again changes nothing) and contains no comma. *)
Theorem model_keys_clean (rules : list CSSRule) :
  exists model, parse rules = Ok model /\ Forall clean_key (keys model).
Proof.
  destruct (parse_total rules) as (css_dict & _ & Hp).
  exists (format_css_dict css_dict). split; [exact Hp|].
  rewrite format_css_dict_merged, keys_map_values, merged_dict_keys.
  apply Forall_forall. intros k Hk. rewrite uniq_In in Hk.
  apply (occurrences_keys_clean css_dict k Hk).
Qed.

(** X3.  Every rule of the model built by parsing has at least one property,
    and every property is stripped and contains neither a newline nor a
    semicolon. *)
Theorem model_props_clean (rules : list CSSRule) :
  exists model,
    parse rules = Ok model /\
    Forall (fun r => props r <> [] /\ Forall clean_prop (props r)) (values model).
Proof.
  destruct (parse_total rules) as (css_dict & _ & Hp).
  exists (format_css_dict css_dict). split; [exact Hp|].
  rewrite format_css_dict_merged. unfold values, merged_dict, group_by_key.
  rewrite !map_map. cbn [fst snd].
  apply Forall_forall. intros r Hr. apply in_map_iff in Hr.
  destruct Hr as (k & <- & Hk). rewrite uniq_In in Hk.
  cbn [sorted_rule props merged_rule]. split.
  - intros E.
    assert (flat_map (fun b => split_properties (raw_props b))
                     (members (occurrences css_dict) k) = []) as E'.
    { apply Permutation_nil. rewrite <- E. apply Permutation_sym, sorted_perm. }
    pose proof (members_present (occurrences css_dict) k Hk) as Hne.
    destruct (members (occurrences css_dict) k) as [|b bs]; [congruence|].
    cbn [flat_map] in E'. apply app_eq_nil in E'. destruct E' as [E' _].
    apply (f_equal (@List.length string)) in E'.
    rewrite split_properties_length in E'. discriminate E'.
  - apply Forall_forall. intros p Hin. rewrite sorted_In in Hin.
    apply in_flat_map in Hin. destruct Hin as (b & _ & Hin).
    apply (split_properties_clean (raw_props b) p Hin).
Qed.

(** ** [sort_css_by_keys]: a canonical order *)

Lemma restrict_ext (d1 d2 : dict CssRule) (ks : list string) :
  (forall k, In k ks -> dict_get d1 k = dict_get d2 k) -> restrict d1 ks = restrict d2 ks.
Proof.
  intros H. unfold restrict. induction ks as [|k ks IH]; [reflexivity|].
  cbn [flat_map]. rewrite (H k) by (left; reflexivity).
  rewrite IH; [reflexivity|]. intros x Hx. apply H. right. exact Hx.
Qed.

Lemma sorted_of_perm (l1 l2 : list string) : Permutation l1 l2 -> sorted l1 = sorted l2.
Proof.
  intros HP. apply sorted_unique; try apply sorted_sorted.
  transitivity l1; [apply Permutation_sym, sorted_perm|].
  transitivity l2; [exact HP | apply sorted_perm].
Qed.

Lemma keys_perm (V : Type) (d d' : dict V) : Permutation d d' -> Permutation (keys d) (keys d').
Proof.
  apply Permutation_map.
Qed.

Lemma dict_get_perm (V : Type) (d d' : dict V) (k : string) :
  NoDup (keys d) -> Permutation d d' -> dict_get d k = dict_get d' k.
Proof.
  intros Hnd HP.
  assert (NoDup (keys d')) as Hnd' by (apply (Permutation_NoDup (keys_perm HP)), Hnd).
  destruct (dict_get d k) as [v|] eqn:E; symmetry.
  - apply In_dict_get; [exact Hnd'|].
    apply (Permutation_in _ HP), dict_get_Some_In, E.
  - apply dict_get_None. rewrite dict_get_None in E. intros H. apply E.
    apply (Permutation_in _ (Permutation_sym (keys_perm HP))), H.
Qed.

Lemma sort_css_by_keys_of_perm (d d' : dict CssRule) :
  NoDup (keys d) -> Permutation d d' -> sort_css_by_keys d = sort_css_by_keys d'.
Proof.
  intros Hnd HP.
  assert (NoDup (keys d')) as Hnd' by (apply (Permutation_NoDup (keys_perm HP)), Hnd).
  rewrite !sort_css_by_keys_restrict by assumption.
  rewrite (sorted_of_perm (keys_perm HP)). f_equal.
  apply restrict_ext. intros k _. apply dict_get_perm; assumption.
Qed.

(** X5.  The lexicographic sort gives a canonical order: two dicts with the
    same entries in different orders are sorted to the same dict. *)
Theorem lexicographic_sort_canonical (d d' : dict CssRule) :
  NoDup (keys d) -> Permutation d d' -> sort_css_by_keys d = sort_css_by_keys d'.
Proof.
  apply sort_css_by_keys_of_perm.
Qed.

Lemma lexicographic_sort_canonical_witness :
  sort_css_by_keys two_rules = sort_css_by_keys two_rules_swapped.
Proof.
  apply (@lexicographic_sort_canonical two_rules two_rules_swapped).
  - simpl. solve_NoDup.
  - apply perm_swap.
Defined.

Lemma NoDup_of_keys (V : Type) (d : dict V) : NoDup (keys d) -> NoDup d.
Proof.
  apply NoDup_map_inv.
Qed.

Lemma restrict_In (d : dict CssRule) (ks : list string) (k : string) (v : CssRule) :
  In (k, v) (restrict d ks) <-> In k ks /\ dict_get d k = Some v.
Proof.
  unfold restrict. rewrite in_flat_map. split.
  - intros (x & Hx & Hin). destruct (dict_get d x) as [v0|] eqn:E; [|destruct Hin].
    destruct Hin as [[= <- <-]|[]]. tauto.
  - intros [Hk E]. exists k. rewrite E. split; [exact Hk | left; reflexivity].
Qed.

Lemma restrict_perm (d : dict CssRule) (ks : list string) :
  NoDup (keys d) -> Permutation ks (keys d) -> Permutation (restrict d ks) d.
Proof.
  intros Hnd HP. apply NoDup_Permutation.
  - apply NoDup_of_keys. rewrite restrict_keys.
    + apply (Permutation_NoDup (Permutation_sym HP)), Hnd.
    + intros x Hx. apply (Permutation_in _ HP), Hx.
  - apply NoDup_of_keys, Hnd.
  - intros [k v]. rewrite restrict_In. split.
    + intros [_ E]. apply dict_get_Some_In, E.
    + intros Hin. split.
      * apply (Permutation_in _ (Permutation_sym HP)).
        apply (in_map fst) in Hin. exact Hin.
      * apply In_dict_get; assumption.
Qed.

Lemma sort_css_by_keys_perm (d : dict CssRule) :
  NoDup (keys d) -> exists out, sort_css_by_keys d = Ok out /\ Permutation out d.
Proof.
  intros Hnd. eexists. split; [apply sort_css_by_keys_restrict, Hnd|].
  apply restrict_perm; [exact Hnd|].
  etransitivity; [apply filter_partition_perm|]. symmetry. apply sorted_perm.
Qed.

(** X6.  The lexicographic sort is idempotent: its output is a rearrangement
    of the entries of its input, and sorting the output again gives the
    output. *)
Theorem lexicographic_sort_idempotent (d : dict CssRule) :
  NoDup (keys d) ->
  exists out,
    sort_css_by_keys d = Ok out /\ Permutation out d /\ sort_css_by_keys out = Ok out.
Proof.
  intros Hnd. destruct (sort_css_by_keys_perm d Hnd) as (out & Hs & HP).
  exists out. split; [exact Hs|]. split; [exact HP|].
  rewrite <- Hs. symmetry. apply sort_css_by_keys_of_perm; [exact Hnd|].
  symmetry. exact HP.
Qed.

Lemma lexicographic_sort_idempotent_witness :
  exists out,
    sort_css_by_keys example_model = Ok out /\ Permutation out example_model /\
    sort_css_by_keys out = Ok out.
Proof.
  apply (lexicographic_sort_idempotent example_model). simpl. solve_NoDup.
Defined.

(** ** [sort_css_by_html]: where it raises *)

Lemma leading_token_pieces (css : string) :
  filter truthy (split_on is_space_or_colon css) = []
  <-> all_chars is_space_or_colon css = true.
Proof.
  induction css as [|c css IH]; [split; reflexivity|].
  cbn [split_on all_chars]. destruct (is_space_or_colon c).
  - cbn [filter truthy andb]. exact IH.
  - destruct (split_on is_space_or_colon css); cbn [filter truthy andb];
      split; discriminate.
Qed.

Lemma leading_token_outcome (css : string) :
  if all_chars is_space_or_colon css
  then leading_token css = Raise IndexError
  else exists token, leading_token css = Ok token.
Proof.
  unfold leading_token. change (fun c : ascii => Ascii.eqb c " " || Ascii.eqb c ":")
    with is_space_or_colon.
  destruct (all_chars is_space_or_colon css) eqn:E.
  - apply leading_token_pieces in E. rewrite E. reflexivity.
  - destruct (filter truthy (split_on is_space_or_colon css)) as [|piece pieces] eqn:F.
    + apply leading_token_pieces in F. congruence.
    + eexists. reflexivity.
Qed.

(** X7.  The leading token of a selector is undefined exactly when the
    selector is made of spaces and colons only (the empty selector included):
    the code then raises [IndexError].  Otherwise it returns a token, which
    contains neither a space nor a colon and is stripped. *)
Theorem leading_token_defined (css : string) :
  if all_chars is_space_or_colon css
  then leading_token css = Raise IndexError
  else exists token,
      leading_token css = Ok token /\
      all_chars (fun a => negb (is_space_or_colon a)) token = true /\
      strip token = token.
Proof.
  pose proof (leading_token_outcome css) as H.
  destruct (all_chars is_space_or_colon css); [exact H|].
  destruct H as [token H]. exists token. split; [exact H|].
  unfold leading_token in H.
  change (fun c : ascii => Ascii.eqb c " " || Ascii.eqb c ":") with is_space_or_colon in H.
  destruct (filter truthy (split_on is_space_or_colon css)) as [|piece pieces] eqn:F;
    [discriminate H|].
  injection H as <-. split; [|apply strip_idem].
  apply all_chars_strip.
  assert (In piece (filter truthy (split_on is_space_or_colon css))) as Hin
      by (rewrite F; left; reflexivity).
  apply filter_In in Hin. destruct Hin as [Hin _].
  pose proof (split_on_pieces is_space_or_colon css) as Hall.
  rewrite Forall_forall in Hall. apply (Hall piece Hin).
Qed.

Lemma leading_token_cases (css : string) :
  (all_chars is_space_or_colon css = true /\ leading_token css = Raise IndexError) \/
  (all_chars is_space_or_colon css = false /\ exists token, leading_token css = Ok token).
Proof.
  pose proof (leading_token_outcome css) as H.
  destruct (all_chars is_space_or_colon css); [left | right]; split; auto.
Qed.

Lemma by_html_loop_returns (html_elem : string) (items res : dict CssRule) :
  if existsb (all_chars is_space_or_colon) (keys items)
  then for_each (by_html_step html_elem) items res = Raise IndexError
  else exists out, for_each (by_html_step html_elem) items res = Ok out.
Proof.
  revert res. induction items as [|[css value] items IH]; intros res.
  - eexists. reflexivity.
  - cbn [keys map fst existsb for_each by_html_step].
    destruct (leading_token_cases css) as [[-> ->]|[-> [token ->]]]; cbn [orb bind].
    + reflexivity.
    + destruct (String.eqb token html_elem && negb (dict_mem res css)); cbn [bind]; apply IH.
Qed.

Lemma sort_css_by_html_outcome (d : dict CssRule) (order : list string) :
  match order with
  | [] => sort_css_by_html d order = Ok []
  | _ :: _ =>
      if existsb (all_chars is_space_or_colon) (keys d)
      then sort_css_by_html d order = Raise IndexError
      else exists out, sort_css_by_html d order = Ok out
  end.
Proof.
  unfold sort_css_by_html. destruct order as [|html_elem order]; [reflexivity|].
  generalize (@nil (string * CssRule)). revert html_elem.
  destruct (existsb (all_chars is_space_or_colon) (keys d)) eqn:E.
  - intros html_elem res. cbn [for_each].
    pose proof (by_html_loop_returns html_elem d res) as H. rewrite E in H.
    rewrite H. reflexivity.
  - induction order as [|next order IH]; intros html_elem res; cbn [for_each].
    + pose proof (by_html_loop_returns html_elem d res) as H. rewrite E in H.
      destruct H as [out ->]. eexists. reflexivity.
    + pose proof (by_html_loop_returns html_elem d res) as H. rewrite E in H.
      destruct H as [out ->]. cbn [bind]. apply (IH next out).
Qed.

(** X8.  The sort by HTML order raises exactly when the identifier sequence
    is not empty and some key of the model is made of spaces and colons only;
    the exception is [IndexError].  With an empty sequence it returns the
    empty dict, whatever the keys. *)
Theorem sort_css_by_html_raises (d : dict CssRule) (order : list string) :
  match order with
  | [] => sort_css_by_html d order = Ok []
  | _ :: _ =>
      if existsb (all_chars is_space_or_colon) (keys d)
      then sort_css_by_html d order = Raise IndexError
      else exists out, sort_css_by_html d order = Ok out
  end.
Proof.
  apply sort_css_by_html_outcome.
Qed.

Lemma dict_set_In (V : Type) (d : dict V) (k : string) (v : V) (x : string * V) :
  In x (dict_set d k v) -> x = (k, v) \/ In x d.
Proof.
  induction d as [|[k' v'] d IH]; simpl.
  - intros [<-|[]]. left. reflexivity.
  - destruct (String.eqb_spec k' k) as [->|]; simpl.
    + intros [<-|H]; auto.
    + intros [<-|H]; auto. destruct (IH H); auto.
Qed.

(** X9.  Whatever the identifier sequence, when the sort by HTML order
    returns, every entry of its output is an entry of its input (same key,
    same rule) and no key occurs twice. *)
Theorem sort_css_by_html_subset (d : dict CssRule) (order : list string)
  (out : dict CssRule) :
  sort_css_by_html d order = Ok out -> NoDup (keys out) /\ incl out d.
Proof.
  apply (sort_css_by_html_invariant (fun res => NoDup (keys res) /\ incl res d)).
  - split; [constructor | intros x []].
  - intros res k v Hin [Hnd Hincl]. split; [apply dict_set_NoDup, Hnd|].
    intros x Hx. destruct (dict_set_In _ _ _ _ Hx) as [->|H]; [exact Hin | apply Hincl, H].
Qed.

Lemma sort_css_by_html_subset_witness :
  NoDup (keys [("b", example_rule); (".k", example_rule);
               ("a:hover", example_rule); ("a b", example_rule)]) /\
  incl [("b", example_rule); (".k", example_rule);
        ("a:hover", example_rule); ("a b", example_rule)] example_model.
Proof.
  apply (@sort_css_by_html_subset example_model ["b"; ".k"; "b"; "a"; "p"]).
  reflexivity.
Defined.

(** ** [sort_css_by_html]: sorting twice *)

Lemma filter_flat_map (A B : Type) (p : B -> bool) (f : A -> list B) (l : list A) :
  filter p (flat_map f l) = flat_map (fun x => filter p (f x)) l.
Proof.
  induction l as [|x l IH]; [reflexivity|].
  cbn [flat_map]. rewrite filter_app, IH. reflexivity.
Qed.

Lemma flat_map_nil (A B : Type) (f : A -> list B) (l : list A) :
  (forall x, In x l -> f x = []) -> flat_map f l = [].
Proof.
  induction l as [|x l IH]; intros H; [reflexivity|].
  cbn [flat_map]. rewrite (H x) by (left; reflexivity).
  apply IH. intros y Hy. apply H. right. exact Hy.
Qed.

Lemma selected_twice (d : dict CssRule) (a b : string) :
  filter (fun kv => selects a (fst kv)) (selected d b)
  = if String.eqb a b then selected d b else [].
Proof.
  unfold selected. rewrite filter_twice.
  destruct (String.eqb_spec a b) as [->|Hne].
  - apply filter_ext. intros kv. apply andb_diag.
  - apply filter_none. intros kv _.
    destruct (selects b (fst kv)) eqn:Sb; [|reflexivity].
    destruct (selects a (fst kv)) eqn:Sa; [|reflexivity].
    exfalso. apply Hne. apply (selects_unique _ _ _ Sa Sb).
Qed.

Lemma selected_of_selected (d : dict CssRule) (ids : list string) (a : string) :
  NoDup ids -> In a ids -> selected (flat_map (selected d) ids) a = selected d a.
Proof.
  intros Hnd Hin. unfold selected at 1. rewrite filter_flat_map.
  induction ids as [|b ids IH]; [destruct Hin|].
  inversion Hnd as [|? ? Hb Hids]; subst.
  cbn [flat_map]. rewrite selected_twice.
  destruct (String.eqb_spec a b) as [->|Hne].
  - rewrite flat_map_nil; [apply app_nil_r|].
    intros c Hc. rewrite selected_twice.
    destruct (String.eqb_spec b c) as [->|]; [tauto | reflexivity].
  - destruct Hin as [E|Hin]; [congruence|]. apply (IH Hids Hin).
Qed.

Lemma flat_map_ext_In (A B : Type) (f g : A -> list B) (l : list A) :
  (forall x, In x l -> f x = g x) -> flat_map f l = flat_map g l.
Proof.
  induction l as [|x l IH]; intros H; [reflexivity|].
  cbn [flat_map]. rewrite (H x) by (left; reflexivity).
  rewrite IH; [reflexivity|]. intros y Hy. apply H. right. exact Hy.
Qed.

(** X10.  The sort by HTML order is idempotent: over a model with distinct
    keys whose selectors all have a leading token, sorting the output again
    with the same identifier sequence gives the output. *)
Theorem sort_css_by_html_idempotent (d : dict CssRule) (order : list string) :
  NoDup (keys d) ->
  (forall k, In k (keys d) -> exists token, leading_token k = Ok token) ->
  exists out, sort_css_by_html d order = Ok out /\ sort_css_by_html out order = Ok out.
Proof.
  intros Hnd Htok. exists (selected_in_order d order).
  pose proof (@sort_css_by_html_selected d order Hnd Htok) as Hs.
  split; [exact Hs|].
  assert (incl (selected_in_order d order) d) as Hincl.
  { intros kv Hkv. apply selected_in_order_In in Hkv. apply Hkv. }
  rewrite sort_css_by_html_selected.
  - f_equal. unfold selected_in_order at 1.
    unfold selected_in_order at 2. apply flat_map_ext_In. intros a Ha.
    apply selected_of_selected; [apply uniq_NoDup | exact Ha].
  - apply (sort_css_by_html_invariant (fun res => NoDup (keys res)) d)
      with (order := order).
    + constructor.
    + intros res k v _ Hres. apply dict_set_NoDup, Hres.
    + exact Hs.
  - intros k Hk. apply Htok. apply in_map_iff in Hk. destruct Hk as (kv & <- & Hkv).
    apply in_map, Hincl, Hkv.
Qed.

Lemma sort_css_by_html_idempotent_witness :
  exists out,
    sort_css_by_html example_model ["b"; ".k"; "b"; "a"; "p"] = Ok out /\
    sort_css_by_html out ["b"; ".k"; "b"; "a"; "p"] = Ok out.
Proof.
  apply (@sort_css_by_html_idempotent example_model ["b"; ".k"; "b"; "a"; "p"]).
  - simpl. solve_NoDup.
  - simpl. intros k Hk.
    repeat (destruct Hk as [<-|Hk]; [eexists; reflexivity|]). destruct Hk.
Defined.

(** ** [generate_output_str]: blocks side by side *)

(** X11.  The output of the serializer for a dict followed by another is the
    output for the first followed by the output for the second, and the
    output is empty only for the empty dict. *)
Theorem generate_output_str_app (d1 d2 : dict CssRule) :
  generate_output_str (d1 ++ d2)
  = (generate_output_str d1 ++ generate_output_str d2)%string /\
  (generate_output_str d1 = "" <-> d1 = []).
Proof.
  unfold generate_output_str. rewrite !output_blocks. cbn [String.append]. split.
  - rewrite map_app. apply join_app.
  - split.
    + destruct d1 as [|item d1]; [reflexivity|].
      cbn [map join fold_right]. unfold block, LF. discriminate.
    + intros ->. reflexivity.
Qed.

(** ** [recurse]: where it raises *)

Lemma collect_child_bare (P : list (string * hdict)) (n : string) (sub : hdict) :
  hdict_extend
    (if negb (hdict_mem (group_entries P) n)
     then hdict_new_list (group_entries P) n
     else group_entries P) n sub
  = Ok (group_entries (P ++ [(n, sub)])).
Proof.
  unfold group_entries.
  rewrite tag_entries_mem, group_by_key_keys, occurs_uniq, group_by_key_snoc.
  destruct (occurs (map fst P) n) eqn:O; cbn [negb].
  - apply tag_entries_extend_old.
    + rewrite group_by_key_keys. apply uniq_NoDup.
    + rewrite group_by_key_keys. apply uniq_In, occurs_In, O.
  - apply tag_entries_extend_new.
    rewrite group_by_key_keys, uniq_In. apply occurs_not_In, O.
Qed.

Lemma collect_child_compatible (a : Attrs) (P : list (string * hdict)) (n : string)
  (sub : hdict) :
  attrs_truthy a = false \/ n <> "attributes" ->
  hdict_extend
    (if negb (hdict_mem (attrs_entry a ++ group_entries P) n)
     then hdict_new_list (attrs_entry a ++ group_entries P) n
     else attrs_entry a ++ group_entries P) n sub
  = Ok (attrs_entry a ++ group_entries (P ++ [(n, sub)])).
Proof.
  intros [Ha|Hn]; [|apply collect_child, Hn].
  unfold attrs_entry. rewrite Ha. cbn [app]. apply collect_child_bare.
Qed.

Lemma recurse_nodes_from (a : Attrs) (nodes : list PageElement) :
  Forall (fun e => forall P,
              recurse_group (attrs_entry a ++ group_entries P) e
              = Ok (attrs_entry a ++ group_entries (P ++ tag_pairs element_dict [e])))
         nodes ->
  forall P,
    recurse nodes (attrs_entry a ++ group_entries P)
    = Ok (attrs_entry a ++ group_entries (P ++ tag_pairs element_dict nodes)).
Proof.
  unfold recurse. induction 1 as [|e nodes He Hnodes IH]; intros P; cbn [for_each].
  - unfold tag_pairs. simpl. rewrite app_nil_r. reflexivity.
  - rewrite He. cbn [bind]. rewrite IH, (tag_pairs_cons element_dict e nodes), app_assoc.
    reflexivity.
Qed.

Lemma tag_names_of_tag (nodes : list PageElement) (n : string) (a : Attrs)
  (cs : list PageElement) :
  In (Tag n a cs) nodes -> In n (tag_names nodes).
Proof.
  unfold tag_names, tag_pairs.
  induction nodes as [|[text|name at' cs'] nodes IH]; simpl; [tauto| |].
  - intros [H|H]; [discriminate | auto].
  - intros [[= -> _ _]|H]; auto.
Qed.

Lemma collision_free_children (name : string) (attrs : Attrs)
  (contents : list PageElement) :
  collision_free (Tag name attrs contents) = true ->
  Forall (fun c => collision_free c = true /\ collectable attrs c) contents.
Proof.
  cbn [collision_free]. rewrite andb_true_iff, orb_true_iff, !negb_true_iff.
  intros [Hattr Hc]. rewrite forallb_forall in Hc.
  apply Forall_forall. intros c Hin. split; [apply Hc, Hin|].
  destruct c as [text|n a cs]; [exact I|]. cbn [collectable].
  destruct Hattr as [Ha|Ho]; [left; exact Ha|].
  right. intros ->. apply occurs_not_In in Ho. apply Ho.
  apply (tag_names_of_tag contents "attributes" a cs Hin).
Qed.

(** The dict of an element without collisions, collected under its name. *)
Lemma recurse_group_collision_free (e : PageElement) :
  collision_free e = true ->
  forall a P,
    collectable a e ->
    recurse_group (attrs_entry a ++ group_entries P) e
    = Ok (attrs_entry a ++ group_entries (P ++ tag_pairs element_dict [e])).
Proof.
  induction e as [text|name attrs contents IH] using PageElement_tree_ind;
    intros He a P Hcol.
  - unfold tag_pairs. simpl. rewrite app_nil_r. reflexivity.
  - rewrite recurse_group_tag.
    assert (recurse contents (attrs_entry attrs)
            = Ok (element_dict (Tag name attrs contents))) as ->.
    { pose proof (collision_free_children name attrs contents He) as Hch.
      assert (Forall (fun e => forall P,
                  recurse_group (attrs_entry attrs ++ group_entries P) e
                  = Ok (attrs_entry attrs
                        ++ group_entries (P ++ tag_pairs element_dict [e])))
                contents) as Hall.
      { rewrite Forall_forall in *. intros c Hc P'.
        destruct (Hch c Hc) as [Hcf Hcc]. apply (IH c Hc Hcf attrs P' Hcc). }
      pose proof (recurse_nodes_from attrs Hall []) as R.
      unfold group_entries at 1 in R. cbn [group_by_key map uniq app] in R.
      rewrite app_nil_r in R. exact R. }
    cbn [bind]. apply collect_child_compatible. exact Hcol.
Qed.

Lemma contents_collision_free (name : string) (attrs : Attrs)
  (contents : list PageElement) :
  collision_free (Tag name attrs contents) = true ->
  recurse contents (attrs_entry attrs) = Ok (element_dict (Tag name attrs contents)).
Proof.
  intros He. pose proof (collision_free_children name attrs contents He) as Hch.
  assert (Forall (fun e => forall P,
              recurse_group (attrs_entry attrs ++ group_entries P) e
              = Ok (attrs_entry attrs ++ group_entries (P ++ tag_pairs element_dict [e])))
            contents) as Hall.
  { rewrite Forall_forall in *. intros c Hc P'.
    destruct (Hch c Hc) as [Hcf Hcc]. apply (recurse_group_collision_free c Hcf attrs P' Hcc). }
  pose proof (recurse_nodes_from attrs Hall []) as R.
  unfold group_entries at 1 in R. cbn [group_by_key map uniq app] in R.
  rewrite app_nil_r in R. exact R.
Qed.

Lemma attrs_entry_attributes_mem (a : Attrs) (d : hdict) :
  attrs_truthy a = true -> hdict_mem (attrs_entry a ++ d) "attributes" = true.
Proof.
  intros Ha. unfold attrs_entry. rewrite Ha. reflexivity.
Qed.

Lemma attrs_entry_attributes_extend (a : Attrs) (d x : hdict) :
  attrs_truthy a = true -> hdict_extend (attrs_entry a ++ d) "attributes" x = Raise TypeError.
Proof.
  intros Ha. unfold attrs_entry. rewrite Ha. reflexivity.
Qed.

(** A collision among the children, or below one of them, makes the loop
    raise. *)
Lemma recurse_nodes_collision (a : Attrs) (nodes : list PageElement) :
  Forall (fun e => collision_free e = false ->
                   forall cd, recurse_group cd e = Raise TypeError) nodes ->
  (attrs_truthy a && occurs (tag_names nodes) "attributes")
  || negb (forallb collision_free nodes) = true ->
  forall P, recurse nodes (attrs_entry a ++ group_entries P) = Raise TypeError.
Proof.
  unfold recurse. induction 1 as [|c nodes Hc Hnodes IH]; intros Hbad P.
  - cbn in Hbad. rewrite andb_false_r in Hbad. discriminate Hbad.
  - cbn [for_each]. destruct (collision_free c) eqn:Ec.
    + destruct c as [text|n at' cs].
      * cbn [recurse_group bind]. apply IH. exact Hbad.
      * destruct (attrs_truthy a) eqn:Ta; destruct (String.eqb_spec n "attributes") as [->|Hn].
        -- rewrite recurse_group_tag, (contents_collision_free _ _ _ Ec). cbn [bind].
           rewrite (attrs_entry_attributes_mem a _ Ta). cbn [negb].
           rewrite (attrs_entry_attributes_extend a _ _ Ta). reflexivity.
        -- rewrite (recurse_group_collision_free _ Ec a P (or_intror Hn)). cbn [bind].
           apply IH. unfold tag_names in *. rewrite (tag_pairs_cons _ _ nodes) in Hbad.
           cbn [forallb] in Hbad. rewrite Ec in Hbad.
           unfold tag_pairs at 1 in Hbad. cbn [flat_map app map fst] in Hbad.
           unfold occurs in *. cbn [existsb] in Hbad.
           apply not_eq_sym, String.eqb_neq in Hn. rewrite Hn in Hbad. exact Hbad.
        -- rewrite (recurse_group_collision_free _ Ec a P (or_introl Ta)). cbn [bind].
           apply IH. cbn [forallb andb] in *. rewrite Ec in Hbad. exact Hbad.
        -- rewrite (recurse_group_collision_free _ Ec a P (or_introl Ta)). cbn [bind].
           apply IH. cbn [forallb andb] in *. rewrite Ec in Hbad. exact Hbad.
    + rewrite (Hc eq_refl). reflexivity.
Qed.

Lemma recurse_group_collision (e : PageElement) :
  collision_free e = false -> forall cd, recurse_group cd e = Raise TypeError.
Proof.
  induction e as [text|name attrs contents IH] using PageElement_tree_ind;
    [discriminate|].
  intros He cd. rewrite recurse_group_tag.
  pose proof (@recurse_nodes_collision attrs contents IH) as R.
  assert (recurse contents (attrs_entry attrs) = Raise TypeError) as ->; [|reflexivity].
  specialize (R) with (P := @nil (string * hdict)).
  unfold group_entries in R. cbn [group_by_key map uniq app] in R.
  rewrite app_nil_r in R. apply R.
  cbn [collision_free] in He.
  destruct (attrs_truthy attrs), (occurs (tag_names contents) "attributes"),
    (forallb collision_free contents); cbn in *; congruence.
Qed.

Lemma recurse_top_level (nodes : list PageElement) :
  recurse nodes []
  = if forallb collision_free nodes
    then Ok (group_entries (tag_pairs element_dict nodes))
    else Raise TypeError.
Proof.
  destruct (forallb collision_free nodes) eqn:E.
  - assert (Forall (fun e => forall P,
                recurse_group (attrs_entry no_attrs ++ group_entries P) e
                = Ok (attrs_entry no_attrs
                      ++ group_entries (P ++ tag_pairs element_dict [e])))
              nodes) as Hall.
    { rewrite Forall_forall. rewrite forallb_forall in E. intros c Hc P.
      apply (recurse_group_collision_free c (E c Hc) no_attrs P).
      destruct c; [exact I | left; reflexivity]. }
    exact (recurse_nodes_from no_attrs Hall []).
  - apply (@recurse_nodes_collision no_attrs nodes) with (P := @nil (string * hdict)).
    + apply Forall_forall. intros c _. apply recurse_group_collision.
    + rewrite E. reflexivity.
Qed.

(** X12.  [_parse] raises exactly when some element with attributes has a
    child element named [attributes], and the exception is [TypeError].
    Otherwise it returns the dict that lists, per tag name of the top-level
    elements in order of first appearance, the dicts of the elements of that
    name in document order; the dict of an element starts with its attribute
    mapping when it has attributes and lists its child elements in the same
    way. *)
Theorem parse_collision (nodes : list PageElement) :
  _parse nodes
  = if forallb collision_free nodes
    then Ok (group_entries (tag_pairs element_dict nodes))
    else Raise TypeError.
Proof.
  unfold _parse. apply recurse_top_level.
Qed.

(** ** [get_html_element_order]: where it raises *)

Lemma parsed_identifiers_return (nodes : list PageElement) :
  returns (get_identifiers_in_order
             (match html_of (group_entries (tag_pairs element_dict nodes)) with
              | Some v => v
              | None => inr (group_entries (tag_pairs element_dict nodes))
              end)).
Proof.
  assert (Forall (fun c => returns (dict_identifiers (element_dict c)) /\
                           Forall (fun g => returns (dict_identifiers (element_dict g)))
                                  (contents_of c)) nodes) as HS.
  { rewrite Forall_forall. intros c _. apply element_dict_returns. }
  unfold group_entries, group_by_key. rewrite map_map. cbn [fst snd].
  rewrite html_of_groups, tag_pairs_names, occurs_uniq, members_tag_pairs.
  destruct (occurs (tag_names nodes) "html") eqn:O.
  - apply occurs_In in O. pose proof (tags_named_nonempty nodes "html" O) as Hne.
    destruct (tags_named nodes "html") as [|c0 l] eqn:E; [congruence|].
    apply list_identifiers_returns.
    + rewrite Forall_forall. intros c _. apply element_dict_returns.
    + apply element_dict_returns.
  - cbn [get_identifiers_in_order].
    apply (@groups_identifiers_return nodes (uniq (tag_names nodes)) HS).
    intros k Hk. apply uniq_In, Hk.
Qed.

(** X13.  [get_html_element_order] returns an identifier sequence exactly
    for the trees in which no element with attributes has a child element
    named [attributes]; for the others it raises [TypeError].  It raises
    neither [IndexError] nor [KeyError]. *)
Theorem flattening_outcome (nodes : list PageElement) :
  if forallb collision_free nodes
  then exists ids, get_html_element_order nodes = Ok ids
  else get_html_element_order nodes = Raise TypeError.
Proof.
  unfold get_html_element_order, identifiers_in_order, _parse.
  rewrite recurse_top_level. destruct (forallb collision_free nodes); [|reflexivity].
  cbn [bind]. destruct (parsed_identifiers_return nodes) as [emitted ->].
  eexists. reflexivity.
Qed.

(** ** Text leaves *)

Lemma recurse_drop_text_nodes (nodes : list PageElement) :
  Forall (fun e => forall cd, recurse_group cd (drop_text e) = recurse_group cd e) nodes ->
  forall cd, recurse (drop_text_nodes nodes) cd = recurse nodes cd.
Proof.
  unfold recurse, drop_text_nodes.
  induction 1 as [|[text|n a cs] nodes He Hnodes IH]; intros cd; [reflexivity| |].
  - cbn [flat_map app for_each recurse_group bind]. apply IH.
  - cbn [flat_map app for_each]. rewrite He.
    destruct (recurse_group cd (Tag n a cs)); cbn [bind]; [apply IH | reflexivity].
Qed.

Lemma recurse_group_drop_text (e : PageElement) :
  forall cd, recurse_group cd (drop_text e) = recurse_group cd e.
Proof.
  induction e as [text|name attrs contents IH] using PageElement_tree_ind;
    intros cd; [reflexivity|].
  cbn [drop_text]. rewrite !recurse_group_tag.
  rewrite <- (recurse_drop_text_nodes IH). reflexivity.
Qed.

Lemma parse_drop_text (nodes : list PageElement) :
  _parse (drop_text_nodes nodes) = _parse nodes.
Proof.
  unfold _parse. apply recurse_drop_text_nodes.
  apply Forall_forall. intros e _. apply recurse_group_drop_text.
Qed.

(** X14.  Text leaves (strings, comments) never influence the result:
    removing them at every depth leaves the nested dict and the identifier
    sequence unchanged, failures included. *)
Theorem text_leaves_ignored (nodes : list PageElement) :
  _parse (drop_text_nodes nodes) = _parse nodes /\
  get_html_element_order (drop_text_nodes nodes) = get_html_element_order nodes.
Proof.
  split; [apply parse_drop_text|].
  unfold get_html_element_order, identifiers_in_order.
  rewrite parse_drop_text. reflexivity.
Qed.

(** ** What the generator never yields *)

Lemma hentry_nested_ind (P : hentry -> Prop) :
  (forall a, P (EAttrs a)) ->
  (forall key value, Forall (Forall P) value -> P (ETag key value)) ->
  forall e, P e.
Proof.
  intros Ha Ht. fix F 1. intros [a|key value]; [apply Ha|].
  apply Ht. induction value as [|d value IH]; constructor; [|exact IH].
  induction d as [|e d IHd]; constructor; [apply F | exact IHd].
Qed.

Lemma attrs_identifiers_not_attributes (a : Attrs) :
  ~ In "attributes" (attrs_identifiers a).
Proof.
  unfold attrs_identifiers. rewrite in_app_iff. intros [H|H].
  - destruct (attr_id a); [|destruct H]. destruct H as [H|[]]. discriminate H.
  - destruct (attr_class a) as [cs|]; [|destruct H].
    apply in_map_iff in H. destruct H as (c & H & _). discriminate H.
Qed.

Lemma dict_identifiers_not_attributes (d : hdict) :
  Forall (fun e => forall ids, item_identifiers e = Ok ids -> ~ In "attributes" ids) d ->
  forall ids, dict_identifiers d = Ok ids -> ~ In "attributes" ids.
Proof.
  induction 1 as [|e d He Hd IH]; intros ids; cbn [dict_identifiers].
  - intros [= <-] [].
  - destruct (item_identifiers e) as [a|] eqn:Ea; cbn [bind]; [|discriminate].
    destruct (dict_identifiers d) as [b|] eqn:Eb; cbn [bind]; [|discriminate].
    intros [= <-]. rewrite in_app_iff. intros [H|H].
    + apply (He a eq_refl H).
    + apply (IH b eq_refl H).
Qed.

Lemma walk_identifiers_not_attributes (v : list hdict) :
  Forall (Forall (fun e => forall ids, item_identifiers e = Ok ids ->
                                       ~ In "attributes" ids)) v ->
  forall ids, walk_identifiers v = Ok ids -> ~ In "attributes" ids.
Proof.
  induction 1 as [|d v Hd Hv IH]; intros ids; cbn [walk_identifiers].
  - intros [= <-] [].
  - destruct (dict_identifiers d) as [a|] eqn:Ea; cbn [bind]; [|discriminate].
    destruct (walk_identifiers v) as [b|] eqn:Eb; cbn [bind]; [|discriminate].
    intros [= <-]. rewrite in_app_iff. intros [H|H].
    + apply (dict_identifiers_not_attributes Hd Ea H).
    + apply (IH b eq_refl H).
Qed.

Lemma body_of_In (d : hdict) (v : list hdict) : body_of d = Some v -> In (ETag "body" v) d.
Proof.
  induction d as [|[a|k w] d IH]; cbn [body_of]; [discriminate| |].
  - intros H. right. apply IH, H.
  - destruct (String.eqb_spec k "body") as [->|].
    + intros [= ->]. left. reflexivity.
    + intros H. right. apply IH, H.
Qed.

Lemma html_of_In (d : hdict) (x : list hdict + hdict) :
  html_of d = Some x -> exists v, x = inl v /\ In (ETag "html" v) d.
Proof.
  induction d as [|[a|k w] d IH]; cbn [html_of]; [discriminate| |].
  - intros H. destruct (IH H) as (v & E & Hin). exists v. split; [exact E | right; exact Hin].
  - destruct (String.eqb_spec k "html") as [->|].
    + intros [= <-]. exists w. split; [reflexivity | left; reflexivity].
    + intros H. destruct (IH H) as (v & E & Hin). exists v.
      split; [exact E | right; exact Hin].
Qed.

(** The two facts that go through the nested dict together: what an item
    yields, and what the walk over the list of a tag key yields. *)
Lemma entries_not_attributes (e : hentry) :
  (forall ids, item_identifiers e = Ok ids -> ~ In "attributes" ids) /\
  (forall key value, e = ETag key value ->
                     forall ids, walk_identifiers value = Ok ids -> ~ In "attributes" ids).
Proof.
  induction e as [a|key value IH] using hentry_nested_ind.
  - split; [|discriminate].
    intros ids [= <-]. apply attrs_identifiers_not_attributes.
  - assert (forall ids, walk_identifiers value = Ok ids -> ~ In "attributes" ids) as Hwalk.
    { apply walk_identifiers_not_attributes.
      apply Forall_forall. intros d Hd. apply Forall_forall. intros e He.
      rewrite Forall_forall in IH. specialize (IH d Hd).
      rewrite Forall_forall in IH. apply (IH e He). }
    split; [|intros k v [= <- <-]; exact Hwalk].
    intros ids. rewrite item_identifiers_tag. cbn [get_identifiers_in_order].
    destruct value as [|first rest]; [discriminate|].
    assert (forall sub, ~ In "attributes" sub ->
              ~ In "attributes" ((if String.eqb key "attributes" then [] else [key]) ++ sub))
      as Hkey.
    { intros sub Hsub. rewrite in_app_iff. intros [H|H]; [|tauto].
      destruct (String.eqb_spec key "attributes"); [destruct H|].
      destruct H as [H|[]]. congruence. }
    destruct (body_of first) as [vb|] eqn:Eb.
    + destruct (walk_identifiers vb) as [b|] eqn:Ew; cbn [bind]; [|discriminate].
      intros [= <-]. apply Hkey. intros [H|H]; [discriminate H|].
      apply body_of_In in Eb. rewrite Forall_forall in IH.
      specialize (IH first (or_introl eq_refl)). rewrite Forall_forall in IH.
      destruct (IH _ Eb) as [_ Hb]. apply (Hb "body" vb eq_refl b Ew H).
    + destruct (walk_identifiers (first :: rest)) as [b|] eqn:Ew; cbn [bind];
        [|discriminate].
      intros [= <-]. apply Hkey. apply (Hwalk b eq_refl).
Qed.

(** X15.  The identifier [attributes] is never in the identifier sequence:
    the key [attributes] is reserved and a tag of that name is not yielded
    (its descendants are). *)
Theorem attributes_never_yielded (nodes : list PageElement) (ids : list string) :
  get_html_element_order nodes = Ok ids -> ~ In "attributes" ids.
Proof.
  unfold get_html_element_order, identifiers_in_order.
  destruct (_parse nodes) as [html_dict|] eqn:Ep; cbn [bind]; [|discriminate].
  destruct (get_identifiers_in_order
              match html_of html_dict with Some v => v | None => inr html_dict end)
    as [emitted|] eqn:Ee; cbn [bind]; [|discriminate].
  intros [= <-]. rewrite fromkeys_uniq, uniq_In.
  destruct (html_of html_dict) as [x|] eqn:Eh.
  - destruct (html_of_In _ Eh) as (v & -> & Hin).
    cbn [get_identifiers_in_order] in Ee.
    destruct v as [|first rest]; [discriminate|].
    destruct (body_of first) as [vb|] eqn:Eb.
    + destruct (walk_identifiers vb) as [b|] eqn:Ew; cbn [bind] in Ee; [|discriminate].
      injection Ee as <-. intros [H|H]; [discriminate H|].
      apply body_of_In in Eb.
      apply (proj2 (entries_not_attributes (ETag "body" vb)) "body" vb eq_refl b Ew H).
    + apply (proj2 (entries_not_attributes (ETag "html" (first :: rest)))
                   "html" (first :: rest) eq_refl emitted Ee).
  - cbn [get_identifiers_in_order] in Ee.
    apply (@dict_identifiers_not_attributes html_dict); [|exact Ee].
    apply Forall_forall. intros e _. apply entries_not_attributes.
Qed.

Lemma attributes_never_yielded_witness :
  ~ In "attributes" ["div"; "p"].
Proof.
  apply (@attributes_never_yielded
           [Tag "div" no_attrs [Tag "attributes" no_attrs [Tag "p" no_attrs []]]]).
  reflexivity.
Defined.

Lemma document_identifiers_witness :
  identifiers_in_order sample_document
  = Ok ("body"
        :: List.concat
             (map element_identifiers
                  [Tag "body" (mkAttrs None (Some ["home"]) [])
                     [Tag "div" (mkAttrs (Some "main") None []) [Tag "p" no_attrs []];
                      Tag "p" no_attrs []]])).
Proof.
  apply (@document_identifiers sample_document
           (Tag "html" no_attrs
              [Tag "head" no_attrs [Tag "title" no_attrs []];
               Tag "body" (mkAttrs None (Some ["home"]) [])
                 [Tag "div" (mkAttrs (Some "main") None []) [Tag "p" no_attrs []];
                  Tag "p" no_attrs []]])
           (Tag "body" (mkAttrs None (Some ["home"]) [])
              [Tag "div" (mkAttrs (Some "main") None []) [Tag "p" no_attrs []];
               Tag "p" no_attrs []])
           [] []).
  - reflexivity.
  - reflexivity.
  - reflexivity.
  - repeat constructor.
Defined.

(** ** [main]: the pipeline for one file *)

(** X16.  In lexicographic mode the pipeline raises [AttributeError] on a
    sheet with a rule that has no [selectorText] (an at-rule).  On a sheet
    of comments and style rules it returns, and what it prints is the
    concatenation of the blocks of the entries of the parsed model, every
    entry once, in the sorted order. *)
Theorem main_lexicographic (sheet : list SheetRule) :
  match plain_rules sheet with
  | Some rules =>
      exists model out,
        parse rules = Ok model /\
        sort_css_by_keys model = Ok out /\
        Permutation out model /\
        main_file sheet None = Ok (join (map block out))
  | None => main_file sheet None = Raise AttributeError
  end.
Proof.
  unfold main_file. rewrite css_to_dict_any_outcome.
  destruct (plain_rules sheet) as [rules|]; [|reflexivity].
  destruct (parse_total rules) as (css_dict & Hc & Hp).
  destruct (sort_css_by_keys_perm (format_css_dict css_dict)
              (format_css_dict_NoDup css_dict)) as (out & Hs & HP).
  exists (format_css_dict css_dict), out. repeat split; try assumption.
  rewrite Hc. cbn [bind]. rewrite Hs. cbn [bind].
  unfold generate_output_str. rewrite output_blocks. reflexivity.
Qed.

Lemma drop_text_nodes_no_tags (nodes : list PageElement) :
  tag_names nodes = [] -> drop_text_nodes nodes = [].
Proof.
  unfold tag_names, tag_pairs, drop_text_nodes.
  induction nodes as [|[text|n a cs] nodes IH]; [reflexivity| |].
  - cbn [flat_map app]. exact IH.
  - cbn [flat_map app map]. discriminate.
Qed.

(** X17.  In HTML mode, an HTML file without any element (empty, or text
    only) gives the empty identifier sequence.  The stylesheet is read
    first: with a rule that has no [selectorText] (an at-rule) the pipeline
    raises [AttributeError]; on a sheet of comments and style rules it
    returns the empty string, so every rule of the stylesheet is dropped. *)
Theorem main_html_without_elements (sheet : list SheetRule) (soup : list PageElement) :
  tag_names soup = [] ->
  get_html_element_order soup = Ok [] /\
  main_file sheet (Some soup)
  = match plain_rules sheet with
    | Some _ => Ok ""
    | None => Raise AttributeError
    end.
Proof.
  intros Ht.
  assert (get_html_element_order soup = Ok []) as Ho.
  { unfold get_html_element_order, identifiers_in_order.
    rewrite <- parse_drop_text, (drop_text_nodes_no_tags soup Ht). reflexivity. }
  split; [exact Ho|].
  unfold main_file. rewrite css_to_dict_any_outcome.
  destruct (plain_rules sheet) as [rules|]; [|reflexivity].
  destruct (parse_total rules) as (css_dict & Hc & _).
  rewrite Hc. cbn [bind]. rewrite Ho. reflexivity.
Qed.

Lemma main_html_without_elements_witness :
  get_html_element_order [NavigableString "no markup here"] = Ok [] /\
  main_file media_sheet (Some [NavigableString "no markup here"])
  = match plain_rules media_sheet with
    | Some _ => Ok ""
    | None => Raise AttributeError
    end.
Proof.
  apply (main_html_without_elements media_sheet [NavigableString "no markup here"]).
  reflexivity.
Defined.

(** The two outcomes on samples: a sheet of style rules, and a sheet with
    a media query. *)
Example text_only_page_drops_rules :
  main_file (map PlainRule grouped_rules) (Some [NavigableString "no markup here"])
  = Ok "".
Proof. reflexivity. Qed.

Example media_sheet_raises :
  main_file media_sheet None = Raise AttributeError /\
  main_file media_sheet (Some [NavigableString "no markup here"]) = Raise AttributeError /\
  main_file media_sheet (Some sample_page) = Raise AttributeError.
Proof. repeat split. Qed.

(** X18.  The outcomes of HTML mode, in the order in which [main] reaches
    them.  The stylesheet is read first: with a rule that has no
    [selectorText] (an at-rule) the pipeline raises [AttributeError],
    whatever the HTML is.  On a sheet of comments and style rules: when the
    HTML has an element with attributes and a child element named
    [attributes], the pipeline raises [TypeError].  Otherwise flattening
    gives an identifier sequence; when it is empty the output is empty; when
    it is not, the pipeline raises [IndexError] if some key of the model is
    made of spaces and colons only, and returns a string if none is. *)
Theorem main_html_outcome (sheet : list SheetRule) (soup : list PageElement) :
  match plain_rules sheet with
  | None => main_file sheet (Some soup) = Raise AttributeError
  | Some rules =>
      exists model,
        parse rules = Ok model /\
        if forallb collision_free soup
        then exists order,
            get_html_element_order soup = Ok order /\
            match order with
            | [] => main_file sheet (Some soup) = Ok ""
            | _ :: _ =>
                if existsb (all_chars is_space_or_colon) (keys model)
                then main_file sheet (Some soup) = Raise IndexError
                else exists output, main_file sheet (Some soup) = Ok output
            end
        else main_file sheet (Some soup) = Raise TypeError
  end.
Proof.
  unfold main_file. rewrite css_to_dict_any_outcome.
  destruct (plain_rules sheet) as [rules|]; [|reflexivity].
  destruct (parse_total rules) as (css_dict & Hc & Hp).
  exists (format_css_dict css_dict). split; [exact Hp|].
  rewrite Hc. cbn [bind].
  unfold get_html_element_order, identifiers_in_order, _parse.
  rewrite recurse_top_level. destruct (forallb collision_free soup); [|reflexivity].
  cbn [bind]. destruct (parsed_identifiers_return soup) as [emitted ->]. cbn [bind].
  eexists. split; [reflexivity|].
  pose proof (sort_css_by_html_outcome (format_css_dict css_dict) (fromkeys emitted)) as H.
  destruct (fromkeys emitted) as [|html_elem order].
  - rewrite H. reflexivity.
  - destruct (existsb (all_chars is_space_or_colon) (keys (format_css_dict css_dict))).
    + rewrite H. reflexivity.
    + destruct H as [out ->]. eexists. reflexivity.
Qed.

(** ** Comments that reach no rule *)

(** X19.  A comment that is directly followed by another comment, and a
    comment after the last style rule, leave no trace in the dict built by
    [css_to_dict]. *)
Theorem unattached_comments_lost (pre post : list CSSRule) (c1 c2 : string) :
  css_to_dict (pre ++ CSSComment c1 :: CSSComment c2 :: post)
  = css_to_dict (pre ++ CSSComment c2 :: post) /\
  css_to_dict (pre ++ [CSSComment c1]) = css_to_dict pre.
Proof.
  unfold css_to_dict, css_to_dict_loop. rewrite !for_each_app.
  destruct (css_to_dict_loop_total pre ([], "")) as [[d c] ->]. cbn [bind]. split.
  - reflexivity.
  - reflexivity.
Qed.

(** ** A document with [html] and without [body] *)

(** X20.  When the first top-level [html] element has no [body] child, the
    generator walks the top-level [html] elements: it yields, for each of
    them in order, its [#id], its classes and the identifiers of its children
    grouped by tag name, and it yields neither the name [html] itself nor
    anything of the other top-level elements. *)
Theorem html_without_body_identifiers (nodes : list PageElement)
  (html0 : PageElement) (htmls : list PageElement) :
  forallb no_attributes_tag nodes = true ->
  tags_named nodes "html" = html0 :: htmls ->
  tags_named (contents_of html0) "body" = [] ->
  Forall (fun h => forallb plain (contents_of h) = true) (html0 :: htmls) ->
  identifiers_in_order nodes
  = Ok (List.concat (map element_identifiers (html0 :: htmls))).
Proof.
  intros Hn Hhtml Hbody Hplain.
  unfold identifiers_in_order. rewrite (parse_nodes nodes Hn). cbn [bind].
  unfold group_entries, group_by_key. rewrite map_map. cbn [fst snd].
  rewrite html_of_groups, tag_pairs_names, occurs_uniq, members_tag_pairs.
  rewrite (proj2 (occurs_In _ _) (tag_names_named nodes "html" Hhtml)), Hhtml.
  cbn [map get_identifiers_in_order]. rewrite body_of_element_dict.
  assert (occurs (tag_names (contents_of html0)) "body" = false) as ->.
  { apply occurs_not_In. intros H. apply tags_named_nonempty in H. congruence. }
  change (element_dict html0 :: map element_dict htmls)
    with (map element_dict (html0 :: htmls)).
  apply walk_identifiers_map.
  rewrite Forall_forall in *. intros h Hh. apply children_dict_identifiers, Hplain, Hh.
Qed.

Lemma html_without_body_identifiers_witness :
  identifiers_in_order bodyless_document
  = Ok (List.concat
          (map element_identifiers
               [Tag "html" (mkAttrs None None ["lang"])
                  [Tag "head" no_attrs [Tag "title" no_attrs []];
                   Tag "div" (mkAttrs None (Some ["page"]) []) []]])).
Proof.
  apply (@html_without_body_identifiers bodyless_document
           (Tag "html" (mkAttrs None None ["lang"])
              [Tag "head" no_attrs [Tag "title" no_attrs []];
               Tag "div" (mkAttrs None (Some ["page"]) []) []])
           []).
  - reflexivity.
  - reflexivity.
  - reflexivity.
  - repeat constructor.
Defined.

Example bodyless_document_order :
  get_html_element_order bodyless_document = Ok ["head"; "title"; "div"; ".page"].
Proof. reflexivity. Qed.
(** * The claims in the words of the specification *)

(** ** Trimming *)

Lemma lstrip_decomposition (s : string) :
  exists l, s = (l ++ lstrip s)%string /\ all_chars isspace l = true.
Proof.
  induction s as [|c s (l & E & Hl)]; [exists ""; split; reflexivity|].
  cbn [lstrip]. destruct (isspace c) eqn:Ec.
  - exists (String c l). cbn [append all_chars]. rewrite <- E, Ec, Hl. split; reflexivity.
  - exists "". split; reflexivity.
Qed.

Lemma rstrip_decomposition (s : string) :
  exists r, s = (rstrip s ++ r)%string /\ all_chars isspace r = true.
Proof.
  induction s as [|c s (r & E & Hr)]; [exists ""; split; reflexivity|].
  cbn [rstrip]. destruct (rstrip s) as [|a b].
  - cbn [append] in E. subst s. destruct (isspace c) eqn:Ec.
    + exists (String c r). cbn [append all_chars]. rewrite Ec, Hr. split; reflexivity.
    + exists r. split; [reflexivity | exact Hr].
  - exists r. split; [|exact Hr]. cbn [append] in *. rewrite <- E. reflexivity.
Qed.

Lemma lstrip_no_leading_space (s : string) : starts_with_space (lstrip s) = false.
Proof.
  induction s as [|c s IH]; [reflexivity|].
  cbn [lstrip]. destruct (isspace c) eqn:Ec; [exact IH | exact Ec].
Qed.

Lemma rstrip_no_trailing_space (s : string) : ends_with_space (rstrip s) = false.
Proof.
  induction s as [|c s IH]; [reflexivity|].
  cbn [rstrip]. destruct (rstrip s) as [|a b].
  - destruct (isspace c) eqn:Ec; [reflexivity|]. cbn [ends_with_space]. exact Ec.
  - exact IH.
Qed.

Lemma rstrip_no_leading_space (s : string) :
  starts_with_space s = false -> starts_with_space (rstrip s) = false.
Proof.
  destruct s as [|c r]; [reflexivity|]. cbn [starts_with_space]. intros Ec.
  destruct (rstrip_keeps_head c r Ec) as [r' ->]. exact Ec.
Qed.

Lemma lstrip_spaces (l x : string) :
  all_chars isspace l = true -> lstrip (l ++ x) = lstrip x.
Proof.
  induction l as [|c l IH]; [reflexivity|].
  cbn [all_chars append lstrip]. rewrite andb_true_iff. intros [-> Hl]. apply IH, Hl.
Qed.

Lemma rstrip_of_spaces (r : string) : all_chars isspace r = true -> rstrip r = "".
Proof.
  induction r as [|c r IH]; [reflexivity|].
  cbn [all_chars rstrip]. rewrite andb_true_iff. intros [-> Hr]. rewrite (IH Hr). reflexivity.
Qed.

Lemma rstrip_spaces (t r : string) :
  all_chars isspace r = true -> rstrip (t ++ r) = rstrip t.
Proof.
  intros Hr. induction t as [|c t IH]; [apply rstrip_of_spaces, Hr|].
  cbn [append rstrip]. rewrite IH. reflexivity.
Qed.

Lemma rstrip_fixed (t : string) : ends_with_space t = false -> rstrip t = t.
Proof.
  induction t as [|c t IH]; [reflexivity|].
  destruct t as [|a b].
  - cbn [ends_with_space rstrip]. intros ->. reflexivity.
  - intros H. change (ends_with_space (String a b) = false) in H.
    change (rstrip (String c (String a b)))
      with (match rstrip (String a b) with
            | "" => if isspace c then "" else String c ""
            | r' => String c r'
            end).
    rewrite (IH H). reflexivity.
Qed.

(** [strip] trims. *)
Lemma strip_trimmed (s : string) : trimmed_to s (strip s).
Proof.
  unfold strip. destruct (lstrip_decomposition s) as (l & El & Hl).
  destruct (rstrip_decomposition (lstrip s)) as (r & Er & Hr).
  exists l, r. split; [|repeat split].
  - rewrite <- Er. exact El.
  - exact Hl.
  - exact Hr.
  - apply rstrip_no_leading_space, lstrip_no_leading_space.
  - apply rstrip_no_trailing_space.
Qed.

(** A string is trimmed to one string only. *)
Lemma trimmed_to_strip (piece token : string) :
  trimmed_to piece token <-> token = strip piece.
Proof.
  split; [|intros ->; apply strip_trimmed].
  intros (l & r & -> & Hl & Hr & Hs & He). unfold strip.
  rewrite (lstrip_spaces l _ Hl). destruct token as [|c t].
  - cbn [append]. assert (lstrip r = "") as ->; [|reflexivity].
    clear - Hr. induction r as [|a r IH]; [reflexivity|].
    cbn [all_chars] in Hr. apply andb_true_iff in Hr. destruct Hr as [Ha Hr].
    cbn [lstrip]. rewrite Ha. apply IH, Hr.
  - cbn [starts_with_space] in Hs. cbn [append lstrip]. rewrite Hs.
    change (String c (t ++ r)%string) with (String c t ++ r)%string.
    rewrite (rstrip_spaces _ r Hr). symmetry. apply rstrip_fixed, He.
Qed.

(** ** The first non-empty piece *)

Lemma split_on_head (s : string) :
  exists pieces, split_on is_space_or_colon s = take_piece s :: pieces.
Proof.
  induction s as [|c s [pieces IH]]; [eexists; reflexivity|].
  cbn [split_on take_piece]. destruct (is_space_or_colon c); [eexists; reflexivity|].
  rewrite IH. eexists. reflexivity.
Qed.

(** The token that [sort_css_by_html] computes for a key is the first
    non-empty piece of the key, trimmed; there is none, and the expression
    raises [IndexError], when the key has no such piece. *)
Lemma leading_token_first_piece (css : string) :
  leading_token css
  = match first_piece css with
    | "" => Raise IndexError
    | String _ _ => Ok (first_token css)
    end.
Proof.
  unfold leading_token, first_token, first_piece.
  change (fun c : ascii => Ascii.eqb c " " || Ascii.eqb c ":") with is_space_or_colon.
  induction css as [|c css IH]; [reflexivity|].
  cbn [split_on skip_separators]. destruct (is_space_or_colon c) eqn:E.
  - cbn [filter truthy]. exact IH.
  - destruct (split_on_head css) as [pieces ->].
    cbn [filter truthy take_piece]. rewrite E. reflexivity.
Qed.

Lemma leading_token_first_token (css : string) :
  first_piece css <> "" -> leading_token css = Ok (first_token css).
Proof.
  intros H. rewrite leading_token_first_piece.
  destruct (first_piece css); [congruence | reflexivity].
Qed.

Lemma skip_separators_decomposition (css : string) :
  exists seps, css = (seps ++ skip_separators css)%string /\
               all_chars is_space_or_colon seps = true.
Proof.
  induction css as [|c css (seps & E & Hs)]; [exists ""; split; reflexivity|].
  cbn [skip_separators]. destruct (is_space_or_colon c) eqn:Ec.
  - exists (String c seps). cbn [append all_chars]. rewrite <- E, Ec, Hs. split; reflexivity.
  - exists "". split; reflexivity.
Qed.

Lemma take_piece_decomposition (s : string) :
  exists rest, s = (take_piece s ++ rest)%string /\
               all_chars (fun a => negb (is_space_or_colon a)) (take_piece s) = true /\
               (rest = "" \/ exists c r, rest = String c r /\ is_space_or_colon c = true).
Proof.
  induction s as [|c s (rest & E & Hp & Hr)].
  - exists "". repeat split. left. reflexivity.
  - cbn [take_piece]. destruct (is_space_or_colon c) eqn:Ec.
    + exists (String c s). repeat split. right. exists c, s. split; [reflexivity | exact Ec].
    + exists rest. cbn [append all_chars]. rewrite <- E, Ec, Hp. repeat split. exact Hr.
Qed.

(** The first piece in the text of the selector: it comes after spaces and
    colons only, it holds neither a space nor a colon, and it ends at the
    end of the text or before a space or a colon. *)
Lemma first_piece_decomposition (css : string) :
  exists seps rest,
    css = (seps ++ first_piece css ++ rest)%string /\
    all_chars is_space_or_colon seps = true /\
    all_chars (fun a => negb (is_space_or_colon a)) (first_piece css) = true /\
    (rest = "" \/ exists c r, rest = String c r /\ is_space_or_colon c = true) /\
    (first_piece css = "" -> rest = "").
Proof.
  unfold first_piece. destruct (skip_separators_decomposition css) as (seps & E & Hs).
  destruct (take_piece_decomposition (skip_separators css)) as (rest & Er & Hp & Hr).
  exists seps, rest. split; [rewrite <- Er; exact E|]. repeat split; try assumption.
  intros He. rewrite He in Er. cbn [append] in Er.
  destruct Hr as [Hr|(c & r & Hr & Hc)]; [exact Hr|]. exfalso.
  rewrite Hr in Er. clear - Er Hc.
  induction css as [|a css IH]; [discriminate Er|].
  cbn [skip_separators] in Er. destruct (is_space_or_colon a) eqn:Ea; [apply IH, Er|].
  injection Er as -> _. congruence.
Qed.

(** C3.  Over a model whose selectors all have a non-empty piece, the sort
    by HTML order keeps exactly the entries whose leading token (the first
    non-empty piece of the key split on space and colon, trimmed) is an
    identifier of the sequence; they come identifier by identifier in the
    order of the sequence (first occurrences), the selectors of one
    identifier in the order of the model; every other key is absent, and the
    rules are unchanged. *)
Theorem html_order_selection (d : dict CssRule) (order : list string) :
  NoDup (keys d) ->
  (forall k, In k (keys d) -> first_piece k <> "") ->
  exists out,
    sort_css_by_html d order = Ok out /\
    out = flat_map (fun html_elem =>
                      filter (fun kv => String.eqb (first_token (fst kv)) html_elem) d)
                   (uniq order) /\
    (forall k, In k (keys out) <->
               In k (keys d) /\ exists html_elem, In html_elem order /\
                                                 trimmed_to (first_piece k) html_elem) /\
    (forall k, In k (keys out) -> dict_get out k = dict_get d k).
Proof.
  intros Hnd Hpiece.
  assert (forall k, In k (keys d) -> leading_token k = Ok (first_token k)) as Htok.
  { intros k Hk. apply leading_token_first_token, Hpiece, Hk. }
  destruct (@sort_css_by_html_selection d order Hnd) as (out & Hs & Hout & Hkeys & Hget).
  { intros k Hk. exists (first_token k). apply Htok, Hk. }
  exists out. split; [exact Hs|]. split; [|split; [|exact Hget]].
  - rewrite Hout. apply flat_map_ext. intros html_elem. apply filter_ext_in.
    intros [k v] Hkv. cbn [fst]. apply selects_token, Htok.
    apply (in_map fst) in Hkv. exact Hkv.
  - intros k. rewrite Hkeys. split.
    + intros (Hk & html_elem & Hin & Ht). split; [exact Hk|].
      exists html_elem. split; [exact Hin|]. rewrite (Htok k Hk) in Ht.
      injection Ht as <-. apply strip_trimmed.
    + intros (Hk & html_elem & Hin & Ht). split; [exact Hk|].
      exists html_elem. split; [exact Hin|]. apply trimmed_to_strip in Ht.
      rewrite (Htok k Hk), Ht. reflexivity.
Qed.

Lemma html_order_selection_witness :
  exists out,
    sort_css_by_html example_model ["b"; ".k"; "b"; "a"; "p"] = Ok out /\
    out = flat_map (fun html_elem =>
                      filter (fun kv => String.eqb (first_token (fst kv)) html_elem)
                             example_model)
                   (uniq ["b"; ".k"; "b"; "a"; "p"]) /\
    (forall k, In k (keys out) <->
               In k (keys example_model) /\
               exists html_elem, In html_elem ["b"; ".k"; "b"; "a"; "p"] /\
                                 trimmed_to (first_piece k) html_elem) /\
    (forall k, In k (keys out) -> dict_get out k = dict_get example_model k).
Proof.
  apply (html_order_selection example_model ["b"; ".k"; "b"; "a"; "p"]).
  - simpl. solve_NoDup.
  - simpl. intros k Hk.
    repeat (destruct Hk as [<-|Hk]; [vm_compute; discriminate|]). destruct Hk.
Defined.

(** ** The flattener on trees with distinct sibling names *)












(** The sample with distinct sibling names: every element in document
    order, its tag name first. *)
Example distinct_page_identifiers :
  identifiers_in_order distinct_page
  = Ok ["div"; "#main"; ".box"; ".wide"; "p"; ".lead"; "a"; "ul"; "#menu"; "li"; "span"].
Proof. reflexivity. Qed.

